(** * Team-Comparison: the metric and aggregation pipeline of [app2.py]

    The dashboard script reads a table of player statistics, keeps the rows
    of the selected teams, derives three impact scores per row, averages
    them per team into a power index, picks the best team, and turns two
    power indices into a pair of win probabilities.

    The script computes on pandas columns of binary64 numbers.  The
    pipeline below is written once, over an interface [Arith] of the
    arithmetic it uses, and is read at two instances:
    - [binary64]: Rocq's primitive floats, i.e. IEEE-754 binary64 with
      round-to-nearest-even, the arithmetic the script runs on, with its
      infinities and NaN;
    - [exact]: the rationals [Q], the same formulas without rounding, on
      which the algebraic laws are stated. *)

From Stdlib Require Import ZArith QArith Qfield Lqa Lia Bool List.
From Stdlib Require Import Ascii String Floats.
From Stdlib Require Import Permutation Sorted Setoid.
Import ListNotations.

Set Warnings "-inexact-float".

(** ** Arithmetic *)

Class Arith (F : Type) := {
  of_Z   : Z -> F;            (* an integer literal or a count *)
  add    : F -> F -> F;
  sub    : F -> F -> F;
  mul    : F -> F -> F;
  div    : F -> F -> F;
  leb    : F -> F -> bool;    (* x <= y *)
  is_nan : F -> bool          (* pandas' isna on a number *)
}.

Definition float_of_Z (z : Z) : float :=
  match z with
  | Z0 => PrimFloat.zero
  | Zpos _ => PrimFloat.of_uint63 (Uint63.of_Z z)
  | Zneg p => PrimFloat.opp (PrimFloat.of_uint63 (Uint63.of_Z (Zpos p)))
  end.

(** IEEE-754 binary64.  [float_of_Z] is exact on the integers the script
    writes (all far below 2^53). *)
#[export] Instance binary64 : Arith float := {
  of_Z := float_of_Z;
  add := PrimFloat.add;
  sub := PrimFloat.sub;
  mul := PrimFloat.mul;
  div := PrimFloat.div;
  leb := PrimFloat.leb;
  is_nan := PrimFloat.is_nan
}.

(** Exact rationals: no rounding, no NaN, no infinity.  [Qdiv] by zero is
    0, where the script's division gives an infinity or NaN: a statement
    over [exact] says what the script computes, up to rounding, only on
    tables where no divisor is zero, and the statements below that relate
    an aggregate to the cells of the table assume so. *)
#[export] Instance exact : Arith Q := {
  of_Z := inject_Z;
  add := Qplus;
  sub := Qminus;
  mul := Qmult;
  div := Qdiv;
  leb := Qle_bool;
  is_nan := fun _ => false
}.

Section Literals.
Context {F : Type} {A : Arith F}.

Definition zero : F := of_Z 0.
Definition one : F := of_Z 1.

(** The decimal literal [n / d]; in binary64 the correctly rounded
    quotient of two exact integers is the double nearest to the literal,
    which is what Python reads (see [binary64_literals]). *)
Definition dec (n d : Z) : F := div (of_Z n) (of_Z d).

Definition c0_6 : F := dec 6 10.
Definition c0_4 : F := dec 4 10.
Definition c0_5 : F := dec 5 10.
Definition c0_3 : F := dec 3 10.
Definition c0_2 : F := dec 2 10.
Definition c1_15 : F := dec 115 100.
Definition c1_05 : F := dec 105 100.
End Literals.

(** ** Strings *)

Definition lower_ascii (c : ascii) : ascii :=
  let n := nat_of_ascii c in
  if (65 <=? n)%nat && (n <=? 90)%nat then ascii_of_nat (n + 32) else c.

(** [str.lower()] on ASCII text: A-Z become a-z.  Text is held as its
    bytes, and bytes from 128 on are left alone, where Python lower-cases
    the letters they encode; no such letter lower-cases to [a] or [l], so
    the test for "all" below gives the script's answer on any text. *)
Fixpoint lower (s : string) : string :=
  match s with
  | EmptyString => EmptyString
  | String c s' => String (lower_ascii c) (lower s')
  end.

(** [pat in s]: [pat] starts at some position of [s]. *)
Fixpoint contains (pat s : string) : bool :=
  String.prefix pat s ||
  match s with
  | EmptyString => false
  | String _ s' => contains pat s'
  end.

(** [Series.str.lower().str.contains(pat, na=False)] on one cell: a missing
    (null) cell stays missing through [lower] and [contains], and [na=False]
    turns the missing answer into [False]. *)
Definition str_lower (cell : option string) : option string :=
  option_map lower cell.

Definition str_contains (pat : string) (na : bool) (cell : option string) : bool :=
  match option_map (contains pat) cell with
  | Some b => b
  | None => na
  end.

(** ** Failures *)

Inductive exn : Type :=
| IndexError       (* [.iloc[0]] or [.values[0]] on an empty table *)
| AttributeError.  (* [.str] on a column that holds no text *)

Definition result (T : Type) : Type := (exn + T)%type.

Definition bind {T U : Type} (r : result T) (k : T -> result U) : result U :=
  match r with
  | inl e => inl e
  | inr x => k x
  end.

Notation "x <- r ;; k" := (bind r (fun x => k))
  (at level 61, r at next level, right associativity).

(** [.iloc[0]] *)
Definition iloc0 {T : Type} (l : list T) : result T :=
  match l with
  | [] => inl IndexError
  | x :: _ => inr x
  end.

(** ** Data model *)

Record PlayerRow (F : Type) : Type := mkPlayerRow {
  country : string;
  role : option string;          (* [None]: the cell is null *)
  player_name : string;
  batting_sr : F;
  batting_average : F;
  wickets : F;
  economy : F
}.
Arguments mkPlayerRow {F}.
Arguments country {F}.
Arguments role {F}.
Arguments player_name {F}.
Arguments batting_sr {F}.
Arguments batting_average {F}.
Arguments wickets {F}.
Arguments economy {F}.

(** A row of [filtered_df] once the three derived columns are added. *)
Record ScoredRow (F : Type) : Type := mkScoredRow {
  raw : PlayerRow F;
  batting_impact : F;
  bowling_impact : F;
  allrounder_index : F
}.
Arguments mkScoredRow {F}.
Arguments raw {F}.
Arguments batting_impact {F}.
Arguments bowling_impact {F}.
Arguments allrounder_index {F}.

(** A row of [team_strength]. *)
Record TeamAggregate (F : Type) : Type := mkTeamAggregate {
  ta_country : string;
  ta_batting_impact : F;
  ta_bowling_impact : F;
  ta_allrounder_index : F;
  ta_power_index : F
}.
Arguments mkTeamAggregate {F}.
Arguments ta_country {F}.
Arguments ta_batting_impact {F}.
Arguments ta_bowling_impact {F}.
Arguments ta_allrounder_index {F}.
Arguments ta_power_index {F}.

(** ** Group keys: [groupby("country")] lists each key once, ascending *)

Fixpoint insert_key (c : string) (l : list string) : list string :=
  match l with
  | [] => [c]
  | k :: l' => if String.leb c k then c :: l else k :: insert_key c l'
  end.

Definition sort_keys (l : list string) : list string :=
  fold_right insert_key [] l.

Definition group_keys (l : list string) : list string :=
  sort_keys (nodup string_dec l).

Section Pipeline.
Context {F : Type} {A : Arith F}.

(** *** Filter stage: [df[df["country"].isin(teams)]] *)
Definition isin (teams : list string) (c : string) : bool :=
  existsb (String.eqb c) teams.

Definition filter_stage (teams : list string) (df : list (PlayerRow F))
  : list (PlayerRow F) :=
  filter (fun r => isin teams (country r)) df.

(** *** Metric engine (lines 55-60) *)
Definition metric_engine (r : PlayerRow F) : ScoredRow F :=
  let bat := mul (batting_sr r) (batting_average r) in
  let bowl := mul (wickets r) (div one (economy r)) in
  mkScoredRow r bat bowl (add (mul c0_6 bat) (mul c0_4 bowl)).

Definition feature_engineering (rows : list (PlayerRow F)) : list (ScoredRow F) :=
  map metric_engine rows.

(** *** Role classification

    The test on one cell of a role column that holds text.  Whether the
    column holds text at all is [str_accessor] below. *)
Definition is_allrounder (m : ScoredRow F) : bool :=
  str_contains "all" false (str_lower (role (raw m))).

(** [ar_df] of the all-rounder tab (lines 206-208), on a role column that
    holds text. *)
Definition ar_df (rows : list (ScoredRow F)) : list (ScoredRow F) :=
  filter is_allrounder rows.

(** [Series.str]: the accessor exists on a column of text only.
    [read_csv] types a column by its cells: a role column with a text
    cell is a column of text, whose empty cells are null; a role column
    whose cells are all empty is read as float64, and [.str] on it raises
    AttributeError.  A table without rows keeps text columns.  The type of
    the column is that of [df]: selecting rows does not change it. *)
Definition has_text (r : PlayerRow F) : bool :=
  match role r with
  | Some _ => true
  | None => false
  end.

Definition str_accessor (df : list (PlayerRow F)) : result unit :=
  match df with
  | [] => inr tt
  | _ :: _ => if existsb has_text df then inr tt else inl AttributeError
  end.

(** *** Means *)
Definition sum (xs : list F) : F := fold_left add xs zero.

(** The plain arithmetic mean. *)
Definition arith_mean (xs : list F) : F :=
  div (sum xs) (of_Z (Z.of_nat (List.length xs))).

(** pandas' [mean]: NaN cells are skipped ([skipna]); a group with no
    cell left is 0/0.  The sum is the plain one, from 0 and left to
    right.  Over [exact] this is the mean itself.  In binary64 pandas
    accumulates a group's sum in its own way and may return another
    double than this one when a partial sum is rounded: the binary64
    means evaluated below are over cells whose partial sums are exact or
    infinite, where every way of accumulating gives the same double, and
    the laws that relate a mean to the rows are stated over [exact]. *)
Definition mean (xs : list F) : F :=
  arith_mean (filter (fun x => negb (is_nan x)) xs).

(** No cell of the column is NaN. *)
Definition no_nan (xs : list F) : bool :=
  forallb (fun x => negb (is_nan x)) xs.

Definition rows_of (c : string) (rows : list (ScoredRow F)) : list (ScoredRow F) :=
  filter (fun m => String.eqb (country (raw m)) c) rows.

(** [rows.groupby("country")[col].mean().reset_index()] *)
Definition groupby_mean (col : ScoredRow F -> F) (rows : list (ScoredRow F))
  : list (string * F) :=
  map (fun c => (c, mean (map col (rows_of c rows))))
      (group_keys (map (fun m => country (raw m)) rows)).

Fixpoint lookup (c : string) (l : list (string * F)) : option F :=
  match l with
  | [] => None
  | (k, v) :: l' => if String.eqb k c then Some v else lookup c l'
  end.

(** [.fillna(0)] on one cell; [None] is a cell the left merge left empty. *)
Definition fillna0 (cell : option F) : F :=
  match cell with
  | Some v => if is_nan v then zero else v
  | None => zero
  end.

Definition power_index (bat bowl ar : F) : F :=
  add (add (mul c0_5 bat) (mul c0_3 bowl)) (mul c0_2 ar).

(** [ar_team] (lines 151-156). *)
Definition ar_team (rows : list (ScoredRow F)) : list (string * F) :=
  groupby_mean allrounder_index (filter is_allrounder rows).

(** One row of [team_strength] for the group key [c]: the two group
    means, the left merge with [ar_team], [fillna(0)], the power index. *)
Definition team_row (rows : list (ScoredRow F)) (c : string) : TeamAggregate F :=
  let bat := fillna0 (Some (mean (map batting_impact (rows_of c rows)))) in
  let bowl := fillna0 (Some (mean (map bowling_impact (rows_of c rows)))) in
  let ar := fillna0 (lookup c (ar_team rows)) in
  mkTeamAggregate c bat bowl ar (power_index bat bowl ar).

(** [team_strength] (lines 145-164). *)
Definition team_strength (rows : list (ScoredRow F)) : list (TeamAggregate F) :=
  map (team_row rows) (group_keys (map (fun m => country (raw m)) rows)).

(** Lines 145-158 as the script runs them: the role test of line 152
    goes through [.str] before any row is looked at. *)
Definition team_strength_run (teams : list string) (df : list (PlayerRow F))
  : result (list (TeamAggregate F)) :=
  bind (str_accessor df)
       (fun _ => inr (team_strength (feature_engineering (filter_stage teams df)))).

(** Lines 206-208 as the script runs them. *)
Definition ar_df_run (teams : list string) (df : list (PlayerRow F))
  : result (list (ScoredRow F)) :=
  bind (str_accessor df)
       (fun _ => inr (ar_df (feature_engineering (filter_stage teams df)))).

(** *** Ranking

    [sort_values(ascending=False)] is called without [kind], so pandas
    sorts with its default, [kind="quicksort"]; its documentation names
    "mergesort" and "stable" as the only stable kinds.  The call
    therefore promises a descending arrangement with NaN keys last
    ([na_position="last"]) and nothing about the order of equal keys, and
    its result is given as a relation. *)
Definition desc {T : Type} (key : T -> F) (x y : T) : Prop :=
  leb (key y) (key x) = true.

Definition sort_values_desc {T : Type} (key : T -> F) (l l' : list T) : Prop :=
  exists s,
    Permutation (filter (fun x => negb (is_nan (key x))) l) s /\
    StronglySorted (desc key) s /\
    l' = s ++ filter (fun x => is_nan (key x)) l.

(** One admissible arrangement, computed: insertion from the right, each
    row placed before the first row with a strictly smaller key, so equal
    keys keep their order of occurrence. *)
Fixpoint insert_desc {T : Type} (key : T -> F) (x : T) (l : list T) : list T :=
  match l with
  | [] => [x]
  | y :: l' => if leb (key y) (key x) then x :: l else y :: insert_desc key x l'
  end.

Definition stable_sort_desc {T : Type} (key : T -> F) (l : list T) : list T :=
  fold_right (insert_desc key) [] (filter (fun x => negb (is_nan (key x))) l)
    ++ filter (fun x => is_nan (key x)) l.

(** [best_team] (line 166): any outcome of sorting, then [.iloc[0]]. *)
Definition best_team (ts : list (TeamAggregate F)) (res : result (TeamAggregate F)) : Prop :=
  exists l', sort_values_desc ta_power_index ts l' /\ res = iloc0 l'.

(** [team_df] and [best_team] of [team_bar_chart] (lines 72-82). *)
Definition team_bar_chart (metric : ScoredRow F -> F) (rows : list (ScoredRow F))
           (res : result (list (string * F) * string)) : Prop :=
  exists team_df,
    sort_values_desc snd (groupby_mean metric rows) team_df /\
    res = (top <- iloc0 team_df ;; inr (team_df, fst top)).

(** *** Simulation (lines 104-109 and 267-274) *)
Definition pressure_adjustment (strength : F) (overs_left : Z) : F :=
  if (overs_left <=? 5)%Z then mul strength c1_15
  else if (overs_left <=? 10)%Z then mul strength c1_05
  else strength.

(** [team_strength.loc[team_strength["country"] == team, "power_index"].values[0]] *)
Definition strength_of (ts : list (TeamAggregate F)) (team : string) : result F :=
  iloc0 (map ta_power_index (filter (fun t => String.eqb (ta_country t) team) ts)).

Definition win_probability (s1 s2 : F) (overs_left : Z) : F * F :=
  let adj1 := pressure_adjustment s1 overs_left in
  let adj2 := pressure_adjustment s2 overs_left in
  let prob1 := div adj1 (add adj1 adj2) in
  let prob2 := sub one prob1 in
  (prob1, prob2).

End Pipeline.

(** ** The multiplier of a tier, over exact arithmetic

    [pressure_adjustment] multiplies by a number that depends on the overs
    only; it is named here to state that fact. *)
Definition pressure_factor (overs_left : Z) : Q :=
  if (overs_left <=? 5)%Z then c1_15
  else if (overs_left <=? 10)%Z then c1_05
  else 1%Q.

(** ** Sample tables *)

Definition player {F : Type} {A : Arith F} (c : string) (ro : option string)
           (n : string) (sr avg w e : Z) : PlayerRow F :=
  mkPlayerRow c ro n (of_Z sr) (of_Z avg) (of_Z w) (of_Z e).

(** The row of the specification's worked example. *)
Definition india_row {F : Type} {A : Arith F} : PlayerRow F :=
  player "India" (Some "All-rounder"%string) "Player 1" 130 40 10 5.

(** Two teams, one all-rounder between them. *)
Definition two_teams {F : Type} {A : Arith F} : list (PlayerRow F) :=
  [ player "India" (Some "All-rounder") "Player 1" 130 40 10 5;
    player "India" (Some "Bowler") "Player 2" 100 20 4 8;
    player "England" (Some "Batter") "Player 3" 140 30 0 9 ]%string.

(** A team with a bowler whose economy is recorded as 0. *)
Definition zero_economy_table {F : Type} {A : Arith F} : list (PlayerRow F) :=
  [ player "India" (Some "All-rounder") "Player 1" 130 40 10 5;
    player "India" (Some "Bowler") "Player 2" 100 20 3 0 ]%string.

(** Two teams with the same figures. *)
Definition tied_table {F : Type} {A : Arith F} : list (PlayerRow F) :=
  [ player "Australia" (Some "Batter") "Player 1" 130 40 10 5;
    player "India" (Some "Batter") "Player 2" 130 40 10 5 ]%string.

(** A team with a player who has no wicket and an economy recorded as 0:
    the bowling_impact of that row is 0 * (1 / 0). *)
Definition nan_impact_table {F : Type} {A : Arith F} : list (PlayerRow F) :=
  [ player "India" (Some "Batter") "Player 1" 130 40 10 5;
    player "India" (Some "Bowler") "Player 2" 100 20 0 0 ]%string.

(** The same, the player being the team's only all-rounder. *)
Definition nan_allrounder_table {F : Type} {A : Arith F} : list (PlayerRow F) :=
  [ player "India" (Some "All-rounder") "Player 1" 100 20 0 0;
    player "India" (Some "Bowler") "Player 2" 100 20 4 8 ]%string.


(** Four teams, tied in pairs: the last two of the grouped order are level
    with each other and ahead of the first two, which are level too. *)
Definition four_teams {F : Type} {A : Arith F} : list (PlayerRow F) :=
  [ player "Australia" (Some "Batter") "Player 1" 100 20 4 8;
    player "England" (Some "Batter") "Player 2" 100 20 4 8;
    player "India" (Some "Batter") "Player 3" 130 40 10 5;
    player "Pakistan" (Some "Batter") "Player 4" 130 40 10 5 ]%string.

(** A table whose role cells are all empty. *)
Definition null_roles {F : Type} {A : Arith F} : list (PlayerRow F) :=
  [ player "India" None "Player 1" 130 40 10 5;
    player "England" None "Player 2" 140 30 0 9 ]%string.

(** Role texts in several spellings, and an empty cell. *)
Definition role_samples {F : Type} {A : Arith F} : list (PlayerRow F) :=
  [ player "India" (Some "ALL-ROUNDER") "Player 1" 130 40 10 5;
    player "India" (Some "Batting Allrounder") "Player 2" 120 30 5 7;
    player "India" (Some "Batter") "Player 3" 140 30 0 9;
    player "India" None "Player 4" 100 20 4 8;
    player "India" (Some "aLl") "Player 5" 110 25 6 6 ]%string.

(** ** The exclusion policy of the specification

    Written from the specification's words, to be compared with what
    [team_strength] computes: rows whose economy equals 0 are left out
    before a team's mean bowling_impact is taken. *)
Definition economy_is_zero {F : Type} {A : Arith F} (r : PlayerRow F) : bool :=
  leb (economy r) zero && leb zero (economy r).

Definition spec_bowling_mean {F : Type} {A : Arith F}
           (teams : list string) (df : list (PlayerRow F)) (c : string) : F :=
  mean (map bowling_impact
            (rows_of c (feature_engineering
                          (filter (fun r => negb (economy_is_zero r))
                                  (filter_stage teams df))))).

(** ** Data loading: column names (lines 35-39)

    [df.columns.str.strip().str.replace(" ", "_").str.lower()], on one
    name, for ASCII names.  The whitespace [strip] removes is Python's
    ASCII whitespace (tab to carriage return, the separators 0x1c-0x1f,
    space).  Names are held as their bytes and bytes from 128 on are kept
    as they are, which is not what the script does with the characters
    they encode: Python's methods work on Unicode (an upper-case letter
    outside ASCII is lower-cased, sometimes into a longer text, and
    whitespace outside ASCII is stripped).  [isascii] says a name is in
    the range these definitions follow the script on. *)
Definition is_space (c : ascii) : bool :=
  let n := nat_of_ascii c in
  ((9 <=? n)%nat && (n <=? 13)%nat) || ((28 <=? n)%nat && (n <=? 32)%nat).

Fixpoint lstrip (s : string) : string :=
  match s with
  | EmptyString => EmptyString
  | String c s' => if is_space c then lstrip s' else s
  end.

Fixpoint rstrip (s : string) : string :=
  match s with
  | EmptyString => EmptyString
  | String c s' =>
      match rstrip s' with
      | EmptyString => if is_space c then EmptyString else String c EmptyString
      | t => String c t
      end
  end.

Definition strip (s : string) : string := rstrip (lstrip s).

(** [str.replace(" ", "_")] *)
Fixpoint replace_space (s : string) : string :=
  match s with
  | EmptyString => EmptyString
  | String c s' =>
      String (if Ascii.eqb c " " then "_"%char else c) (replace_space s')
  end.

Definition normalize_column (name : string) : string :=
  lower (replace_space (strip name)).

(** The two character-wise steps as one map over the characters. *)
Fixpoint map_chars (f : ascii -> ascii) (s : string) : string :=
  match s with
  | EmptyString => EmptyString
  | String c s' => String (f c) (map_chars f s')
  end.

Definition normalize_char (c : ascii) : ascii :=
  lower_ascii (if Ascii.eqb c " " then "_"%char else c).

(** The header of the table [load_data] returns. *)
Definition load_columns (header : list string) : list string :=
  map normalize_column header.

(** Every character of a string satisfies [p]. *)
Fixpoint all_chars (p : ascii -> bool) (s : string) : bool :=
  match s with
  | EmptyString => true
  | String c s' => p c && all_chars p s'
  end.

Definition is_upper (c : ascii) : bool :=
  let n := nat_of_ascii c in (65 <=? n)%nat && (n <=? 90)%nat.

(** [str.isascii()] *)
Definition isascii (s : string) : bool :=
  all_chars (fun c => (nat_of_ascii c <? 128)%nat) s.

(** ** Sidebar (lines 46-50) *)

(** [Series.unique()]: the distinct values, in order of first appearance. *)
Fixpoint unique (l : list string) : list string :=
  match l with
  | [] => []
  | x :: l' => x :: filter (fun y => negb (String.eqb y x)) (unique l')
  end.

(** The options of the multiselect, which are also its default. *)
Definition default_teams {F : Type} (df : list (PlayerRow F)) : list string :=
  unique (map country df).

(** [st.selectbox(label, options)]: the option the user points at
    (the first one unless changed), [None] when there is no option. *)
Definition selectbox (options : list string) (choice : nat) : option string :=
  nth_error options choice.

(** What the script shows through [st.warning]. *)
Inductive ui_event : Type :=
| warning (msg : string).

Section Views.
Context {F : Type} {A : Arith F}.

(** *** The bars of [team_bar_chart] (lines 82-87): a bar gets the white
    edge when its team is [best_team]. *)
Definition bar_highlights (team_df : list (string * F)) (best : string) : list bool :=
  map (fun bar => String.eqb (fst bar) best) team_df.

(** *** The all-rounder tab (lines 203-255) *)
Definition nan : F := div zero zero.

Definition fmin (a b : F) : F := if leb a b then a else b.
Definition fmax (a b : F) : F := if leb a b then b else a.

(** [Series.min()] and [Series.max()]: NaN cells are skipped. *)
Definition col_min (xs : list F) : F :=
  match filter (fun x => negb (is_nan x)) xs with
  | [] => nan
  | x :: l => fold_left fmin l x
  end.

Definition col_max (xs : list F) : F :=
  match filter (fun x => negb (is_nan x)) xs with
  | [] => nan
  | x :: l => fold_left fmax l x
  end.

(** The literal [1e-6]. *)
Definition c1e_6 : F := dec 1 1000000.

(** [(x - min) / (max - min + 1e-6) * 250 + 60] *)
Definition marker_size (mn mx x : F) : F :=
  add (mul (div (sub x mn) (add (sub mx mn) c1e_6)) (of_Z 250)) (of_Z 60).

Definition marker_sizes (ar : list (ScoredRow F)) : list F :=
  let xs := map allrounder_index ar in
  map (marker_size (col_min xs) (col_max xs)) xs.

(** [top_ar]: [sort_values("allrounder_index", ascending=False).head(3)]. *)
Definition top_ar (ar top : list (ScoredRow F)) : Prop :=
  exists l', sort_values_desc allrounder_index ar l' /\ top = firstn 3 l'.

Definition is_empty {T : Type} (l : list T) : bool :=
  match l with [] => true | _ => false end.

(** What the tab draws: the scatter plot (marker sizes and the annotated
    player names) when there is an all-rounder, and the bar chart. *)
Record AllRounderView : Type := mkAllRounderView {
  scatter : option (list F * list string);
  team_chart : list (string * F) * string
}.

(** The tab, from top to bottom: the events shown, and the view or the
    exception that ends it.  The bar chart is drawn from [ar_df] in both
    branches of the test on [ar_df.empty]. *)
Definition allrounder_tab (rows : list (ScoredRow F))
           (out : list ui_event * result AllRounderView) : Prop :=
  let ar := ar_df rows in
  if is_empty ar then
    exists chart,
      team_bar_chart allrounder_index ar chart /\
      out = ([warning "No all-rounders available for selected teams."],
             c <- chart ;; inr (mkAllRounderView None c))
  else
    exists top chart,
      top_ar ar top /\
      team_bar_chart allrounder_index ar chart /\
      out = ([], c <- chart ;;
                 inr (mkAllRounderView
                        (Some (marker_sizes ar, map (fun m => player_name (raw m)) top))
                        c)).

(** *** The simulation tab (lines 258-274) *)

(** [[t for t in teams if t != team1]] *)
Definition other_teams (teams : list string) (team1 : option string) : list string :=
  filter (fun t => negb (match team1 with
                         | Some c => String.eqb t c
                         | None => false
                         end)) teams.

(** The lookup of a selectbox value; no country equals [None]. *)
Definition strength_of_choice (ts : list (TeamAggregate F)) (team : option string)
  : result F :=
  match team with
  | Some c => strength_of ts c
  | None => iloc0 []
  end.

Definition simulation_tab (teams : list string) (ts : list (TeamAggregate F))
           (choice1 choice2 : nat) (overs_left : Z)
  : result (option string * option string * (F * F)) :=
  let team1 := selectbox teams choice1 in
  let team2 := selectbox (other_teams teams team1) choice2 in
  s1 <- strength_of_choice ts team1 ;;
  s2 <- strength_of_choice ts team2 ;;
  inr (team1, team2, win_probability s1 s2 overs_left).
End Views.

(** ** The order of binary64 numbers

    [<=] on two numbers that are not NaN compares them as the triples
    below compare lexicographically: the sign class first (-infinity,
    negative, zero, positive, +infinity), then exponent and mantissa,
    negated for negative numbers. *)
Definition sf_rank (x : spec_float) : Z * Z * Z :=
  match x with
  | S754_nan => (0, 0, 0)
  | S754_zero _ => (0, 0, 0)
  | S754_infinity s => (if s then -2 else 2, 0, 0)
  | S754_finite s m e => if s then (-1, - e, - Zpos m) else (1, e, Zpos m)
  end%Z.

Definition rank_le (p q : Z * Z * Z) : Prop :=
  let '(a, b, c) := p in
  let '(a', b', c') := q in
  (a < a' \/ (a = a' /\ (b < b' \/ (b = b' /\ c <= c'))))%Z.

(** * Properties *)

(** ** Substring test *)

Lemma prefix_append (p s : string) :
  String.prefix p s = true <-> exists q, s = (p ++ q)%string.
Proof.
  revert s; induction p as [|a p IH]; intros s; simpl.
  - split; [intros _; exists s; reflexivity | destruct s; reflexivity].
  - destruct s as [|b s]; simpl.
    + split; [discriminate | intros [q H]; discriminate].
    + destruct (ascii_dec a b) as [->|Hne].
      * rewrite IH. split; intros [q H]; exists q.
        -- now rewrite H.
        -- now injection H.
      * split; [discriminate | intros [q H]; injection H; intros; congruence].
Qed.

Lemma contains_eq (pat s : string) :
  contains pat s =
  String.prefix pat s ||
  match s with EmptyString => false | String _ s' => contains pat s' end.
Proof. destruct s; reflexivity. Qed.

Lemma contains_substring (pat s : string) :
  contains pat s = true <-> exists p q, s = (p ++ pat ++ q)%string.
Proof.
  induction s as [|c s IH]; rewrite contains_eq.
  - rewrite orb_false_r, prefix_append. split.
    + intros [q H]. exists EmptyString, q. exact H.
    + intros [p [q H]]. destruct p as [|a p]; [now exists q | discriminate].
  - rewrite orb_true_iff, prefix_append, IH. split.
    + intros [[q H] | [p [q H]]].
      * exists EmptyString, q. exact H.
      * exists (String c p), q. simpl. now rewrite H.
    + intros [p [q H]]. destruct p as [|a p]; simpl in H.
      * left. now exists q.
      * right. exists p, q. now injection H.
Qed.

(** ** Group keys *)

Lemma insert_key_perm (c : string) (l : list string) :
  Permutation (c :: l) (insert_key c l).
Proof.
  induction l as [|k l IH]; simpl.
  - apply Permutation_refl.
  - destruct (String.leb c k).
    + apply Permutation_refl.
    + eapply perm_trans; [apply perm_swap | apply perm_skip, IH].
Qed.

Lemma sort_keys_perm (l : list string) : Permutation l (sort_keys l).
Proof.
  induction l as [|c l IH]; simpl.
  - constructor.
  - eapply perm_trans; [apply perm_skip, IH | apply insert_key_perm].
Qed.

Lemma group_keys_In (c : string) (l : list string) :
  In c (group_keys l) <-> In c l.
Proof.
  unfold group_keys. rewrite <- (nodup_In string_dec l c). split.
  - apply Permutation_in, Permutation_sym, sort_keys_perm.
  - apply Permutation_in, sort_keys_perm.
Qed.

Lemma group_keys_NoDup (l : list string) : NoDup (group_keys l).
Proof.
  unfold group_keys.
  eapply Permutation_NoDup; [apply sort_keys_perm | apply NoDup_nodup].
Qed.

Lemma group_keys_nil (l : list string) : group_keys l = [] <-> l = [].
Proof.
  split.
  - intros H. destruct l as [|c l]; [reflexivity|].
    assert (Hin : In c (group_keys (c :: l))) by (apply group_keys_In; now left).
    rewrite H in Hin. destruct Hin.
  - intros ->. reflexivity.
Qed.

(** ** The tables, for any arithmetic *)

Section Tables.
Context {F : Type} {A : Arith F}.
Implicit Types (df : list (PlayerRow F)) (rows : list (ScoredRow F)).

Lemma filter_stage_In teams df (r : PlayerRow F) :
  In r (filter_stage teams df) <-> In r df /\ In (country r) teams.
Proof.
  unfold filter_stage, isin. rewrite filter_In, existsb_exists.
  split; intros [Hr Hc]; split; trivial.
  - destruct Hc as [c [Hin Heq]]. apply String.eqb_eq in Heq. now subst.
  - exists (country r). split; [assumption | apply String.eqb_refl].
Qed.

Lemma filter_stage_nil df : filter_stage [] df = [].
Proof.
  unfold filter_stage. induction df as [|r df IH]; simpl; [reflexivity | exact IH].
Qed.

Lemma mean_no_nan (xs : list F) : no_nan xs = true -> mean xs = arith_mean xs.
Proof.
  intros H. unfold mean. f_equal. unfold no_nan in H.
  induction xs as [|x xs IH]; [reflexivity|]. simpl in *.
  apply andb_prop in H. destruct H as [Hx Hxs]. rewrite Hx. f_equal. now apply IH.
Qed.

(** A column without NaN whose mean is a number goes through [fillna(0)]
    unchanged: the cell is the arithmetic mean. *)
Lemma fillna0_mean (xs : list F) :
  no_nan xs = true -> is_nan (arith_mean xs) = false ->
  fillna0 (Some (mean xs)) = arith_mean xs.
Proof. intros H1 H2. rewrite (mean_no_nan xs H1). simpl. now rewrite H2. Qed.

Lemma rows_of_In c rows (m : ScoredRow F) :
  In m (rows_of c rows) <-> In m rows /\ country (raw m) = c.
Proof. unfold rows_of. now rewrite filter_In, String.eqb_eq. Qed.

Lemma rows_of_nil c rows :
  rows_of c rows = [] <-> ~ In c (map (fun m => country (raw m)) rows).
Proof.
  split.
  - intros H Hin. apply in_map_iff in Hin. destruct Hin as [m [Hc Hm]].
    assert (Hin : In m (rows_of c rows)) by now apply rows_of_In.
    rewrite H in Hin. destruct Hin.
  - intros H. destruct (rows_of c rows) as [|m l] eqn:E; [reflexivity|].
    exfalso. apply H. assert (Hin : In m (rows_of c rows)) by (rewrite E; now left).
    apply rows_of_In in Hin. destruct Hin as [Hin Hc].
    apply in_map_iff. now exists m.
Qed.

Lemma lookup_keys (f : string -> F) c (keys : list string) :
  lookup c (map (fun k => (k, f k)) keys) = if in_dec string_dec c keys then Some (f c) else None.
Proof.
  induction keys as [|k keys IH]; simpl; [reflexivity|].
  destruct (String.eqb_spec k c) as [->|Hne].
  - destruct (string_dec c c); [reflexivity | congruence].
  - rewrite IH. destruct (string_dec k c); [congruence|].
    destruct (in_dec string_dec c keys); reflexivity.
Qed.

(** The left merge: a team with all-rounder rows finds their mean in
    [ar_team], a team without finds nothing. *)
Lemma lookup_ar_team c rows :
  lookup c (ar_team rows) =
  match rows_of c (filter is_allrounder rows) with
  | [] => None
  | ars => Some (mean (map allrounder_index ars))
  end.
Proof.
  unfold ar_team, groupby_mean.
  rewrite (lookup_keys (fun c => mean (map allrounder_index (rows_of c (filter is_allrounder rows))))).
  destruct (in_dec string_dec c _) as [Hin|Hnin].
  - rewrite group_keys_In in Hin.
    destruct (rows_of c (filter is_allrounder rows)) eqn:E; [|reflexivity].
    apply rows_of_nil in E. exfalso. apply E. exact Hin.
  - rewrite group_keys_In in Hnin. apply rows_of_nil in Hnin. now rewrite Hnin.
Qed.

Lemma team_strength_In rows (t : TeamAggregate F) :
  In t (team_strength rows) <->
  In (ta_country t) (map (fun m => country (raw m)) rows) /\
  t = team_row rows (ta_country t).
Proof.
  unfold team_strength. rewrite in_map_iff. split.
  - intros [c [Ht Hc]]. rewrite group_keys_In in Hc. subst t. simpl. now split.
  - intros [Hc Ht]. exists (ta_country t). split; [now symmetry | now apply group_keys_In].
Qed.

Lemma team_strength_countries rows :
  map ta_country (team_strength rows) = group_keys (map (fun m => country (raw m)) rows).
Proof.
  unfold team_strength. rewrite map_map. simpl. apply map_id.
Qed.

(** Each selected team with at least one row in the table gets its row
    of [team_strength], and only one. *)
Lemma team_strength_unique rows : NoDup (map ta_country (team_strength rows)).
Proof. rewrite team_strength_countries. apply group_keys_NoDup. Qed.

Lemma scored_countries teams df c :
  In c (map (fun m => country (raw m)) (feature_engineering (filter_stage teams df))) <->
  In c teams /\ exists r, In r df /\ country r = c.
Proof.
  unfold feature_engineering. rewrite map_map. simpl. rewrite in_map_iff. split.
  - intros [r [Hc Hr]]. apply filter_stage_In in Hr. destruct Hr as [Hr Ht].
    subst c. split; [assumption | now exists r].
  - intros [Ht [r [Hr Hc]]]. exists r. split; [assumption|].
    apply filter_stage_In. subst c. now split.
Qed.

(** *** Sorting *)

Lemma filter_nan_split {T : Type} (key : T -> F) (l : list T) :
  Permutation l (filter (fun x => negb (is_nan (key x))) l ++ filter (fun x => is_nan (key x)) l).
Proof.
  induction l as [|x l IH]; simpl; [constructor|].
  destruct (is_nan (key x)); simpl.
  - now apply Permutation_cons_app.
  - now constructor.
Qed.

Lemma sort_values_desc_perm {T : Type} (key : T -> F) (l l' : list T) :
  sort_values_desc key l l' -> Permutation l l'.
Proof.
  intros [s [Hp [_ ->]]].
  eapply perm_trans; [apply filter_nan_split | apply Permutation_app_tail, Hp].
Qed.

Lemma sort_values_desc_nil {T : Type} (key : T -> F) (l' : list T) :
  sort_values_desc key [] l' <-> l' = [].
Proof.
  split.
  - intros H. apply sort_values_desc_perm in H. now apply Permutation_nil.
  - intros ->. exists []. repeat split; constructor.
Qed.

Lemma insert_desc_perm {T : Type} (key : T -> F) (x : T) (l : list T) :
  Permutation (x :: l) (insert_desc key x l).
Proof.
  induction l as [|y l IH]; simpl.
  - apply Permutation_refl.
  - destruct (leb (key y) (key x)).
    + apply Permutation_refl.
    + eapply perm_trans; [apply perm_swap | apply perm_skip, IH].
Qed.

Lemma fold_insert_desc_perm {T : Type} (key : T -> F) (l : list T) :
  Permutation l (fold_right (insert_desc key) [] l).
Proof.
  induction l as [|x l IH]; simpl.
  - constructor.
  - eapply perm_trans; [apply perm_skip, IH | apply insert_desc_perm].
Qed.
End Tables.

(** ** The rows of a team *)

Section TeamRows.
Context {F : Type} {A : Arith F}.

Lemma isin_In (teams : list string) (c : string) : isin teams c = true <-> In c teams.
Proof.
  unfold isin. rewrite existsb_exists. split.
  - intros [k [Hk E]]. apply String.eqb_eq in E. now subst.
  - intros H. exists c. split; [exact H | apply String.eqb_refl].
Qed.

(** The group of a selected team holds the scored rows of the rows of
    [df] that carry the team's name, in the order of [df]. *)
Lemma team_rows_filter (teams : list string) (df : list (PlayerRow F)) (c : string) :
  In c teams ->
  rows_of c (feature_engineering (filter_stage teams df)) =
  map metric_engine (filter (fun r => String.eqb (country r) c) df).
Proof.
  intros Hc. unfold rows_of, feature_engineering, filter_stage.
  induction df as [|r df IH]; [reflexivity|]. simpl.
  destruct (String.eqb_spec (country r) c) as [E|E].
  - rewrite E, (proj2 (isin_In teams c) Hc). simpl. rewrite E, String.eqb_refl.
    now rewrite IH.
  - destruct (isin teams (country r)); simpl; [|exact IH].
    destruct (String.eqb_spec (country r) c) as [E'|_]; [contradiction | exact IH].
Qed.

(** ... and its all-rounder group those of them whose role has "all". *)
Lemma team_allrounders_filter (teams : list string) (df : list (PlayerRow F)) (c : string) :
  In c teams ->
  rows_of c (filter is_allrounder (feature_engineering (filter_stage teams df))) =
  map metric_engine
      (filter (fun r => String.eqb (country r) c
                        && str_contains "all" false (str_lower (role r))) df).
Proof.
  intros Hc. unfold rows_of, feature_engineering, filter_stage.
  induction df as [|r df IH]; [reflexivity|]. simpl.
  destruct (isin teams (country r)) eqn:Ei; simpl.
  - unfold is_allrounder at 1. simpl.
    destruct (str_contains "all" false (str_lower (role r))); simpl.
    + destruct (String.eqb (country r) c); simpl; now rewrite IH.
    + rewrite andb_false_r. exact IH.
  - destruct (String.eqb_spec (country r) c) as [E|_]; [|exact IH].
    rewrite E, (proj2 (isin_In teams c) Hc) in Ei. discriminate Ei.
Qed.
End TeamRows.

(** ** The role column *)

Section RoleColumn.
Context {F : Type} {A : Arith F}.

Lemma str_accessor_text (df : list (PlayerRow F)) :
  (exists r, In r df /\ role r <> None) -> str_accessor df = inr tt.
Proof.
  intros [r [Hr Hrole]]. unfold str_accessor.
  destruct df as [|r0 df0]; [reflexivity|].
  replace (existsb has_text (r0 :: df0)) with true; [reflexivity|].
  symmetry. apply existsb_exists. exists r. split; [exact Hr|].
  unfold has_text. destruct (role r); [reflexivity | congruence].
Qed.

Lemma str_accessor_null (df : list (PlayerRow F)) :
  df <> [] -> (forall r, In r df -> role r = None) -> str_accessor df = inl AttributeError.
Proof.
  intros Hne Hnull. unfold str_accessor. destruct df as [|r0 df0]; [congruence|].
  replace (existsb has_text (r0 :: df0)) with false; [reflexivity|].
  symmetry. apply not_true_is_false. intros H. apply existsb_exists in H.
  destruct H as [r [Hr Ht]]. unfold has_text in Ht. now rewrite (Hnull r Hr) in Ht.
Qed.

Lemma team_strength_run_inr (teams : list string) (df : list (PlayerRow F))
      (ts : list (TeamAggregate F)) :
  team_strength_run teams df = inr ts ->
  ts = team_strength (feature_engineering (filter_stage teams df)).
Proof.
  unfold team_strength_run. destruct (str_accessor df) as [e|[]]; simpl; congruence.
Qed.

(** The role test, spelled out. *)
Lemma is_allrounder_spec (m : ScoredRow F) :
  is_allrounder m = true <->
  exists s, role (raw m) = Some s /\ exists p q, lower s = (p ++ "all" ++ q)%string.
Proof.
  unfold is_allrounder, str_contains, str_lower.
  destruct (role (raw m)) as [s|]; simpl.
  - rewrite contains_substring. split.
    + intros H. now exists s.
    + intros [s' [E H]]. now injection E as ->.
  - split; [discriminate | intros [s [E _]]; discriminate].
Qed.
End RoleColumn.

(** ** Exact arithmetic *)

Section Exact.
Open Scope Q_scope.

Lemma exact_no_nan (xs : list Q) : filter (fun x => negb (is_nan x)) xs = xs.
Proof.
  induction xs as [|x xs IH]; [reflexivity|].
  change (x :: filter (fun x => negb (is_nan x)) xs = x :: xs). now f_equal.
Qed.

Lemma exact_fillna0 (v : Q) : fillna0 (Some v) = v.
Proof. reflexivity. Qed.

(** Without NaN, pandas' mean is the arithmetic mean. *)
Lemma exact_mean (xs : list Q) : mean xs = arith_mean xs.
Proof. unfold mean. now rewrite exact_no_nan. Qed.

Lemma exact_key_no_nan {T : Type} (key : T -> Q) (l : list T) :
  filter (fun x => negb (is_nan (key x))) l = l /\
  filter (fun x => is_nan (key x)) l = [].
Proof.
  induction l as [|x l [IH1 IH2]]; [now split|]. split.
  - change (x :: filter (fun x => negb (is_nan (key x))) l = x :: l). now f_equal.
  - exact IH2.
Qed.

Lemma exact_sort_values_desc {T : Type} (key : T -> Q) (l l' : list T) :
  sort_values_desc key l l' <-> Permutation l l' /\ StronglySorted (desc key) l'.
Proof.
  unfold sort_values_desc. destruct (exact_key_no_nan key l) as [-> ->]. split.
  - intros [s [Hp [Hs ->]]]. now rewrite app_nil_r.
  - intros [Hp Hs]. exists l'. now rewrite app_nil_r.
Qed.

Lemma insert_desc_sorted {T : Type} (key : T -> Q) (x : T) (l : list T) :
  StronglySorted (desc key) l -> StronglySorted (desc key) (insert_desc key x l).
Proof.
  induction 1 as [|y l Hs IH Hy]; simpl.
  - repeat constructor.
  - destruct (Qle_bool (key y) (key x)) eqn:E.
    + constructor; [now constructor|]. constructor; [exact E|].
      apply Forall_forall. intros z Hz. rewrite Forall_forall in Hy.
      unfold desc in *. simpl in *. specialize (Hy z Hz).
      rewrite Qle_bool_iff in *. now apply Qle_trans with (key y).
    + constructor; [exact IH|].
      eapply Permutation_Forall; [apply insert_desc_perm|].
      constructor; [|exact Hy].
      unfold desc. simpl. rewrite Qle_bool_iff.
      apply Qlt_le_weak, Qnot_le_lt. rewrite <- Qle_bool_iff. now rewrite E.
Qed.

Lemma stable_sort_desc_exact {T : Type} (key : T -> Q) (l : list T) :
  stable_sort_desc key l = fold_right (insert_desc key) [] l.
Proof.
  unfold stable_sort_desc. destruct (exact_key_no_nan key l) as [-> ->].
  apply app_nil_r.
Qed.

(** The sort always has an outcome: the stable arrangement is one. *)
Lemma stable_sort_desc_admissible {T : Type} (key : T -> Q) (l : list T) :
  sort_values_desc key l (stable_sort_desc key l).
Proof.
  apply exact_sort_values_desc. rewrite stable_sort_desc_exact. split.
  - apply fold_insert_desc_perm.
  - induction l as [|x l IH]; simpl; [constructor | now apply insert_desc_sorted].
Qed.

(** The first row of a descending arrangement carries the largest key. *)
Lemma sorted_head_max {T : Type} (key : T -> Q) (l l' : list T) (x : T) :
  sort_values_desc key l l' -> In x l ->
  exists b, iloc0 l' = inr b /\ In b l /\ key x <= key b.
Proof.
  rewrite exact_sort_values_desc. intros [Hp Hs] Hx.
  destruct l' as [|b l'].
  - apply Permutation_sym, Permutation_nil in Hp. subst l. destruct Hx.
  - exists b. split; [reflexivity|]. split.
    + apply Permutation_in with (b :: l'); [now apply Permutation_sym | now left].
    + apply (Permutation_in _ Hp) in Hx. destruct Hx as [->|Hx].
      * apply Qle_refl.
      * inversion Hs as [|? ? _ Hall]; subst. rewrite Forall_forall in Hall.
        apply Qle_bool_iff. exact (Hall x Hx).
Qed.
End Exact.

(** ** Literals *)

(** In binary64 the constants of the pipeline are the doubles Python reads
    from the literals of the script. *)
Lemma binary64_literals :
  (@c0_6 float _ = 0.6 /\ @c0_4 float _ = 0.4 /\ @c0_5 float _ = 0.5 /\
   @c0_3 float _ = 0.3 /\ @c0_2 float _ = 0.2 /\
   @c1_15 float _ = 1.15 /\ @c1_05 float _ = 1.05 /\
   @zero float _ = 0 /\ @one float _ = 1)%float.
Proof. vm_compute. repeat split; reflexivity. Qed.

(** Over the rationals they are the decimal fractions themselves. *)
Lemma exact_literals :
  (@c0_6 Q _ == 6 # 10 /\ @c0_4 Q _ == 4 # 10 /\ @c0_5 Q _ == 5 # 10 /\
   @c0_3 Q _ == 3 # 10 /\ @c0_2 Q _ == 2 # 10 /\
   @c1_15 Q _ == 115 # 100 /\ @c1_05 Q _ == 105 # 100)%Q.
Proof. repeat split; reflexivity. Qed.

(** ** Metric engine *)

(** C1.  The feature-engineering step keeps the filtered rows as they are
    (none added, none dropped) and gives each of them
    batting_impact = batting_sr * batting_average,
    bowling_impact = wickets * (1 / economy) and
    allrounder_index = 0.6 * batting_impact + 0.4 * bowling_impact,
    in any arithmetic.  The row with batting_sr 130, batting_average 40,
    wickets 10 and economy 5 gets 5200, 2.0 and 3120.8, both in binary64
    (where 3120.8 is the double the literal denotes) and exactly. *)
Theorem metric_engine_formulas :
  (forall (F : Type) (A : Arith F) (teams : list string) (df : list (PlayerRow F)),
      let scored := feature_engineering (filter_stage teams df) in
      map raw scored = filter_stage teams df /\
      forall m, In m scored ->
        batting_impact m = mul (batting_sr (raw m)) (batting_average (raw m)) /\
        bowling_impact m = mul (wickets (raw m)) (div one (economy (raw m))) /\
        allrounder_index m =
          add (mul c0_6 (batting_impact m)) (mul c0_4 (bowling_impact m))) /\
  (feature_engineering (filter_stage ["India"%string] [@india_row float _]) =
     [mkScoredRow india_row 5200 2 3120.8])%float /\
  (let m := metric_engine (@india_row Q _) in
   batting_impact m == 5200 /\ bowling_impact m == 2 /\
   allrounder_index m == 31208 # 10)%Q.
Proof.
  split; [|split].
  - intros F A teams df scored. split.
    + unfold scored, feature_engineering. rewrite map_map. apply map_id.
    + intros m Hm. apply in_map_iff in Hm. destruct Hm as [r [<- _]].
      repeat split.
  - vm_compute. reflexivity.
  - repeat split.
Qed.

(** The general part of [metric_engine_formulas] at the sample row. *)
Lemma metric_engine_formulas_witness :
  let scored := feature_engineering (filter_stage ["India"%string] [@india_row Q _]) in
  In (metric_engine india_row) scored /\
  batting_impact (metric_engine (@india_row Q _)) =
    (batting_sr india_row * batting_average india_row)%Q.
Proof.
  split.
  - left. reflexivity.
  - apply (proj2 (proj1 metric_engine_formulas Q exact ["India"%string] [india_row])).
    left. reflexivity.
Defined.

(** ** Aggregation *)

(** C2, as stated, fails.  In binary64, a player without a wicket whose
    economy is recorded as 0 has bowling_impact 0 * (1 / 0), which is
    NaN.  pandas' mean skips the cell: on a team of two rows with
    bowling_impact 2 and NaN the team's bowling_impact is 2, the mean
    over one of the team's two rows, while the arithmetic mean over the
    team's rows is NaN. *)
Lemma nan_cells_are_skipped :
  let df := @nan_impact_table float _ in
  let rows := feature_engineering (filter_stage ["India"%string] df) in
  map (fun m => country (raw m)) rows = ["India"; "India"]%string /\
  map bowling_impact rows = [2%float; nan] /\
  exists t,
    In t (team_strength rows) /\
    ta_country t = "India"%string /\
    ta_bowling_impact t = 2%float /\
    PrimFloat.is_nan (arith_mean (map bowling_impact rows)) = true /\
    ta_bowling_impact t <> arith_mean (map bowling_impact rows).
Proof.
  split; [reflexivity|]. split; [vm_compute; reflexivity|].
  eexists. split; [left; reflexivity|].
  split; [reflexivity|]. split; [vm_compute; reflexivity|].
  split; [vm_compute; reflexivity|].
  intros H. apply (f_equal PrimFloat.is_nan) in H. vm_compute in H. discriminate.
Qed.

(** C2, amended.  In any arithmetic, every selected team that has a row
    in the table has its row in [team_strength], whose power_index is
    0.5 * batting_impact + 0.3 * bowling_impact + 0.2 * allrounder_index.
    In exact arithmetic and on a table where no economy is 0, the
    batting_impact and bowling_impact of a team are the arithmetic means
    (sum over count) of batting_sr * batting_average and of
    wickets * (1 / economy) over the rows of the table that carry the
    team's name, of which there is at least one.  In binary64, on
    [two_teams] with both teams selected, England gets 4200 and 0, India
    3600 and 1.25.  With 3000, 2.0 and 0 the power index is 1500.6, in
    binary64 and exactly. *)
Theorem team_strength_means :
  (forall (F : Type) (A : Arith F) (teams : list string) (df : list (PlayerRow F))
          (c : string),
      In c teams -> (exists r, In r df /\ country r = c) ->
      exists t, In t (team_strength (feature_engineering (filter_stage teams df))) /\
        ta_country t = c /\
        ta_power_index t =
          add (add (mul c0_5 (ta_batting_impact t)) (mul c0_3 (ta_bowling_impact t)))
              (mul c0_2 (ta_allrounder_index t))) /\
  (forall (teams : list string) (df : list (PlayerRow Q)) (t : TeamAggregate Q),
      (forall r, In r df -> ~ (economy r == 0)%Q) ->
      In t (team_strength (feature_engineering (filter_stage teams df))) ->
      let team_rows := filter (fun r => String.eqb (country r) (ta_country t)) df in
      In (ta_country t) teams /\
      team_rows <> [] /\
      ta_batting_impact t =
        arith_mean (map (fun r => batting_sr r * batting_average r)%Q team_rows) /\
      ta_bowling_impact t =
        arith_mean (map (fun r => wickets r * (1 / economy r))%Q team_rows)) /\
  (team_strength
     (feature_engineering (filter_stage ["India"; "England"]%string two_teams)) =
   [mkTeamAggregate "England" 4200 0 0 2100;
    mkTeamAggregate "India" 3600 1.25 3120.8 2424.535])%float /\
  (power_index 3000 2 0 = 1500.6)%float /\
  (power_index 3000 2 0 == 15006 # 10)%Q.
Proof.
  split; [|split; [|split; [|split]]].
  - intros F A teams df c Hc Hr.
    exists (team_row (feature_engineering (filter_stage teams df)) c).
    split; [|split; reflexivity].
    apply team_strength_In. split; [|reflexivity].
    simpl. apply scored_countries. now split.
  - intros teams df t _ Ht team_rows.
    apply team_strength_In in Ht. destruct Ht as [Hc Ht].
    apply scored_countries in Hc. destruct Hc as [Hc [r [Hr Er]]].
    split; [exact Hc|]. split.
    + intros E. assert (Hin : In r team_rows).
      { apply filter_In. split; [exact Hr | now apply String.eqb_eq]. }
      rewrite E in Hin. destruct Hin.
    + rewrite Ht at 1 2. unfold team_row.
      cbn [ta_batting_impact ta_bowling_impact].
      rewrite !exact_fillna0, !exact_mean, (team_rows_filter teams df _ Hc), !map_map.
      split; reflexivity.
  - vm_compute. reflexivity.
  - vm_compute. reflexivity.
  - reflexivity.
Qed.

(** [team_strength_means] over exact arithmetic on [two_teams] with both
    teams selected: each team has the means of its own rows, 3600 and 5/4
    for India (of 5200, 2000 and of 2, 1/2), 4200 and 0 for England. *)
Lemma team_strength_means_witness :
  let ts := team_strength
              (feature_engineering (filter_stage ["India"; "England"]%string (@two_teams Q _))) in
  (forall t, In t ts -> ta_country t = "India"%string ->
     ta_batting_impact t == 3600 /\ ta_bowling_impact t == 5 # 4)%Q /\
  (forall t, In t ts -> ta_country t = "England"%string ->
     ta_batting_impact t == 4200 /\ ta_bowling_impact t == 0)%Q.
Proof.
  assert (He : forall r, In r (@two_teams Q _) -> ~ (economy r == 0)%Q).
  { intros r [<-|[<-|[<-|[]]]]; discriminate. }
  intros ts. split; intros t Ht Hc;
    destruct (proj1 (proj2 team_strength_means) ["India"; "England"]%string two_teams t He Ht)
      as [_ [_ [Hbat Hbowl]]];
    rewrite Hbat, Hbowl, Hc; split; reflexivity.
Defined.

(** ** Pressure adjustment *)


(** ** Win probabilities, over exact arithmetic *)

Section Probabilities.
Open Scope Q_scope.

Lemma pressure_factor_pos (overs_left : Z) : 0 < pressure_factor overs_left.
Proof.
  unfold pressure_factor.
  destruct (overs_left <=? 5)%Z; [|destruct (overs_left <=? 10)%Z]; reflexivity.
Qed.

Lemma pressure_adjustment_factor (s : Q) (overs_left : Z) :
  pressure_adjustment s overs_left == s * pressure_factor overs_left.
Proof.
  unfold pressure_adjustment, pressure_factor.
  destruct (overs_left <=? 5)%Z; [|destruct (overs_left <=? 10)%Z];
    [reflexivity | reflexivity | ring].
Qed.



Lemma ratio_half_lt (a b : Q) :
  0 < a + b -> (1 # 2 < a / (a + b) <-> b < a).
Proof.
  intros Hab. split; intros H.
  - assert (E : a == a / (a + b) * (a + b)) by (field; lra).
    assert (H2 : (1 # 2) * (a + b) < a / (a + b) * (a + b))
      by (apply Qmult_lt_compat_r; assumption).
    rewrite <- E in H2. lra.
  - apply Qlt_shift_div_l; [exact Hab | lra].
Qed.

Lemma ratio_half_eq (a b : Q) :
  0 < a + b -> (a / (a + b) == 1 # 2 <-> a == b).
Proof.
  intros Hab. split; intros H.
  - assert (E : a == a / (a + b) * (a + b)) by (field; lra).
    rewrite H in E. lra.
  - assert (E : a + b == 2 * a) by lra. rewrite E. field. lra.
Qed.
End Probabilities.




(** C10, amended.  In exact arithmetic, for overs_left between 1 and 20
    and two strictly positive power indices, team 1's win probability is
    above 1/2 exactly when its power index is the larger one, and equal
    to 1/2 exactly when the two power indices are equal.  (The binary64
    quotient follows this up to rounding, see [binary64_near_tie].) *)
Theorem win_probability_order (s1 s2 : Q) (overs_left : Z) :
  (1 <= overs_left <= 20)%Z -> (0 < s1)%Q -> (0 < s2)%Q ->
  ((1 # 2 < fst (win_probability s1 s2 overs_left) <-> s2 < s1) /\
   (fst (win_probability s1 s2 overs_left) == 1 # 2 <-> s1 == s2))%Q.
Proof.
  intros _ H1 H2. unfold win_probability. simpl.
  pose proof (pressure_factor_pos overs_left) as Hm.
  pose proof (pressure_adjustment_factor s1 overs_left) as E1.
  pose proof (pressure_adjustment_factor s2 overs_left) as E2.
  set (m := pressure_factor overs_left) in *.
  set (a := pressure_adjustment s1 overs_left) in *.
  set (b := pressure_adjustment s2 overs_left) in *.
  assert (Ha : (0 < a)%Q) by (rewrite E1; nra).
  assert (Hb : (0 < b)%Q) by (rewrite E2; nra).
  assert (Hab : (0 < a + b)%Q) by lra.
  rewrite (ratio_half_lt a b Hab), (ratio_half_eq a b Hab), E1, E2.
  split; split; intros H; nra.
Qed.

(** [win_probability_order] at power indices 3 and 1 with 3 overs left. *)
Lemma win_probability_order_witness :
  ((1 # 2 < fst (win_probability 3 1 3) <-> 1 < 3) /\
   (fst (win_probability 3 1 3) == 1 # 2 <-> 3 == 1))%Q.
Proof.
  apply (win_probability_order 3 1 3); [lia | reflexivity | reflexivity].
Defined.

(** The worked example of the specification: power indices 1500.6 and
    1200.0 with 3 overs left give about 0.5556 for team 1; in binary64
    the two probabilities add up to 1.0. *)
Lemma win_probability_example :
  (win_probability 1500.6 1200 3 = (0.5556542990446568, 0.4443457009553432) /\
   0.5556542990446568 + 0.4443457009553432 = 1)%float /\
  (fst (win_probability (15006 # 10) 1200 3) == 15006 # 27006)%Q.
Proof. split; [vm_compute; split; reflexivity | reflexivity]. Qed.

(** C10, as stated, fails.  In binary64, with 15 overs left (no
    adjustment), the power indices 2600.6000000000004 and 2600.6 are
    strictly positive and the first is the larger; their sum rounds to
    twice the first, so the quotient is exactly 0.5: team 1's computed
    win probability is 1/2, not above it. *)
Lemma binary64_near_tie :
  let s1 := 2600.6000000000004%float in
  let s2 := 2600.6%float in
  PrimFloat.ltb 0 s2 = true /\
  PrimFloat.ltb s2 s1 = true /\
  (s1 + s2 = 2 * s1)%float /\
  fst (win_probability s1 s2 15) = 0.5%float /\
  PrimFloat.ltb 0.5 (fst (win_probability s1 s2 15)) = false.
Proof. vm_compute. repeat split; reflexivity. Qed.

(** ** All-rounders *)

(** C6.  The role test goes through the [.str] accessor, which a column
    without text does not have: on a table with rows whose role cells are
    all empty, both places that classify ([ar_df] and the rows behind
    [ar_team]) raise AttributeError, as on [null_roles].  On a role
    column with at least one text cell nothing is raised, and a filtered
    row is classified as an all-rounder exactly when its role is present
    and, lower-cased, has "all" as a substring; an empty cell among text
    cells is classified as not an all-rounder.  [ar_team] groups the rows
    of that same test.  On [role_samples] the roles "ALL-ROUNDER",
    "Batting Allrounder" and "aLl" are all-rounders, "Batter" and the
    empty cell are not. *)
Theorem allrounder_classification :
  (forall (F : Type) (A : Arith F) (teams : list string) (df : list (PlayerRow F)),
      df <> [] -> (forall r, In r df -> role r = None) ->
      ar_df_run teams df = inl AttributeError /\
      team_strength_run teams df = inl AttributeError) /\
  (forall (F : Type) (A : Arith F) (teams : list string) (df : list (PlayerRow F)),
      (exists r, In r df /\ role r <> None) ->
      exists ars, ar_df_run teams df = inr ars /\
        forall m, In m ars <->
          In m (feature_engineering (filter_stage teams df)) /\
          exists s, role (raw m) = Some s /\
                    exists p q, lower s = (p ++ "all" ++ q)%string) /\
  (forall (F : Type) (A : Arith F) (rows : list (ScoredRow F)),
      ar_team rows = groupby_mean allrounder_index (ar_df rows)) /\
  (ar_df_run ["India"; "England"]%string (@null_roles float _) = inl AttributeError /\
   team_strength_run ["India"; "England"]%string (@null_roles float _) = inl AttributeError) /\
  (map role (@role_samples float _) =
     [Some "ALL-ROUNDER"; Some "Batting Allrounder"; Some "Batter"; None; Some "aLl"]%string /\
   map is_allrounder (feature_engineering (filter_stage ["India"%string] (@role_samples float _)))
     = [true; true; false; false; true]).
Proof.
  split; [|split; [|split; [|split]]].
  - intros F A teams df Hne Hnull. unfold ar_df_run, team_strength_run.
    rewrite (str_accessor_null df Hne Hnull). split; reflexivity.
  - intros F A teams df Htext. unfold ar_df_run.
    rewrite (str_accessor_text df Htext). simpl.
    eexists. split; [reflexivity|].
    intros m. unfold ar_df. rewrite filter_In, is_allrounder_spec. reflexivity.
  - reflexivity.
  - split; reflexivity.
  - split; reflexivity.
Qed.

(** [allrounder_classification] on [role_samples]: the column has text,
    nothing is raised, and the all-rounders are players 1, 2 and 5. *)
Lemma allrounder_classification_witness :
  exists ars,
    ar_df_run ["India"%string] (@role_samples float _) = inr ars /\
    map (fun m => player_name (raw m)) ars = ["Player 1"; "Player 2"; "Player 5"]%string /\
    forall m, In m ars -> exists s, role (raw m) = Some s /\
                                    exists p q, lower s = (p ++ "all" ++ q)%string.
Proof.
  destruct (proj1 (proj2 allrounder_classification) float binary64
                  ["India"%string] role_samples) as [ars [Hrun Hars]].
  - exists (player "India" (Some "aLl"%string) "Player 5" 110 25 6 6).
    split; [simpl; tauto | discriminate].
  - exists ars. split; [exact Hrun|]. split.
    + injection Hrun as <-. reflexivity.
    + intros m Hm. apply Hars in Hm. tauto.
Defined.

(** C5, as stated, fails.  In binary64, the only all-rounder of a team
    has no wicket and an economy recorded as 0, so its allrounder_index
    is NaN.  The team has an all-rounder row, and the mean of
    allrounder_index over its all-rounder rows is NaN; [fillna(0)] fills
    that cell too, and the team's allrounder_index is 0. *)
Lemma nan_allrounder_gets_zero :
  let df := @nan_allrounder_table float _ in
  let ars := ar_df (feature_engineering (filter_stage ["India"%string] df)) in
  map (fun m => (country (raw m), player_name (raw m))) ars
    = [("India", "Player 1")]%string /\
  map allrounder_index ars = [nan] /\
  PrimFloat.is_nan (mean (map allrounder_index ars)) = true /\
  team_strength_run ["India"%string] df
    = inr [mkTeamAggregate "India" 2000 0.5 0 1000.15]%float.
Proof. vm_compute. repeat split; reflexivity. Qed.

(** C5, amended.  On a role column that holds text, lines 145-158 return
    a table with one row for each selected team that has a row in [df].
    In any arithmetic, whenever they return a table, a team none of
    whose rows in [df] has a role with "all" has allrounder_index 0.  In
    exact arithmetic and on a table where no economy is 0, a team with
    such rows has the arithmetic mean, over those rows only, of
    0.6 * (batting_sr * batting_average) + 0.4 * (wickets * (1 / economy)). *)
Theorem allrounder_index_default :
  (forall (F : Type) (A : Arith F) (teams : list string) (df : list (PlayerRow F)),
      (exists r, In r df /\ role r <> None) ->
      exists ts, team_strength_run teams df = inr ts /\
        forall c, In c (map ta_country ts) <->
                  In c teams /\ exists r, In r df /\ country r = c) /\
  (forall (F : Type) (A : Arith F) (teams : list string) (df : list (PlayerRow F))
          (ts : list (TeamAggregate F)) (t : TeamAggregate F),
      team_strength_run teams df = inr ts -> In t ts ->
      filter (fun r => String.eqb (country r) (ta_country t)
                       && str_contains "all" false (str_lower (role r))) df = [] ->
      ta_allrounder_index t = zero) /\
  (forall (teams : list string) (df : list (PlayerRow Q))
          (ts : list (TeamAggregate Q)) (t : TeamAggregate Q),
      (forall r, In r df -> ~ (economy r == 0)%Q) ->
      team_strength_run teams df = inr ts -> In t ts ->
      let ars := filter (fun r => String.eqb (country r) (ta_country t)
                                  && str_contains "all" false (str_lower (role r))) df in
      ars <> [] ->
      ta_allrounder_index t =
        arith_mean
          (map (fun r => c0_6 * (batting_sr r * batting_average r)
                         + c0_4 * (wickets r * (1 / economy r)))%Q ars)).
Proof.
  split; [|split].
  - intros F A teams df Htext. unfold team_strength_run.
    rewrite (str_accessor_text df Htext). simpl.
    eexists. split; [reflexivity|].
    intros c. rewrite team_strength_countries, group_keys_In. apply scored_countries.
  - intros F A teams df ts t Hrun Ht Hars.
    apply team_strength_run_inr in Hrun. subst ts.
    apply team_strength_In in Ht. destruct Ht as [Hc Ht].
    apply scored_countries in Hc. destruct Hc as [Hc _].
    rewrite Ht. unfold team_row. cbn [ta_allrounder_index ta_country].
    rewrite lookup_ar_team, (team_allrounders_filter teams df _ Hc), Hars. reflexivity.
  - intros teams df ts t _ Hrun Ht ars Hars.
    apply team_strength_run_inr in Hrun. subst ts.
    apply team_strength_In in Ht. destruct Ht as [Hc Ht].
    apply scored_countries in Hc. destruct Hc as [Hc _].
    rewrite Ht at 1. unfold team_row. cbn [ta_allrounder_index].
    rewrite lookup_ar_team, (team_allrounders_filter teams df _ Hc). fold ars.
    destruct ars as [|r ars']; [congruence|].
    cbn [map]. cbv iota. rewrite exact_fillna0, exact_mean, map_map. reflexivity.
Qed.

(** [allrounder_index_default] on [two_teams] with both teams selected:
    in binary64 England, which has no all-rounder, gets 0; in exact
    arithmetic India gets 3120.8, the index of its one all-rounder. *)
Lemma allrounder_index_default_witness :
  (exists ts, team_strength_run ["India"; "England"]%string (@two_teams float _) = inr ts /\
     forall t, In t ts -> ta_country t = "England"%string -> ta_allrounder_index t = 0%float) /\
  (exists ts, team_strength_run ["India"; "England"]%string (@two_teams Q _) = inr ts /\
     forall t, In t ts -> ta_country t = "India"%string ->
               (ta_allrounder_index t == 31208 # 10)%Q).
Proof.
  split.
  - exists (team_strength
              (feature_engineering (filter_stage ["India"; "England"]%string two_teams))).
    split; [reflexivity|]. intros t Ht Hc.
    apply (proj1 (proj2 allrounder_index_default) float binary64
                 ["India"; "England"]%string two_teams _ t eq_refl Ht).
    rewrite Hc. reflexivity.
  - exists (team_strength
              (feature_engineering (filter_stage ["India"; "England"]%string two_teams))).
    split; [reflexivity|]. intros t Ht Hc.
    assert (He : forall r, In r (@two_teams Q _) -> ~ (economy r == 0)%Q)
      by (intros r [<-|[<-|[<-|[]]]]; discriminate).
    rewrite (proj2 (proj2 allrounder_index_default)
                   ["India"; "England"]%string two_teams _ t He eq_refl Ht);
      rewrite Hc; [reflexivity | discriminate].
Defined.

(** ** Empty selection *)

(** C7.  With no team selected the filter stage returns no row, the
    derived table and [team_strength] are empty, and [ar_df] is empty;
    but the best-team step then takes [.iloc[0]] of an empty table: its
    only outcome is IndexError, and so is that of [team_bar_chart]. *)
Theorem empty_selection_raises :
  forall (F : Type) (A : Arith F) (df : list (PlayerRow F)),
    let rows := feature_engineering (filter_stage [] df) in
    filter_stage [] df = [] /\
    rows = [] /\
    team_strength rows = [] /\
    ar_df rows = [] /\
    best_team (team_strength rows) (inl IndexError) /\
    (forall res, best_team (team_strength rows) res -> res = inl IndexError) /\
    (forall metric res, team_bar_chart metric rows res -> res = inl IndexError).
Proof.
  intros F A df rows. unfold rows. rewrite filter_stage_nil. simpl.
  repeat split.
  - exists []. split; [now apply sort_values_desc_nil | reflexivity].
  - intros res [l' [Hs ->]]. apply sort_values_desc_nil in Hs. now subst.
  - intros metric res [team_df [Hs ->]]. apply sort_values_desc_nil in Hs. now subst.
Qed.

(** ** Rows with economy 0 *)

(** C8, as stated, fails.  In binary64, on a team with one ordinary
    bowler and one whose economy is 0, the specification's policy (leave
    the zero-economy row out) gives a mean bowling_impact of 2, while
    [team_strength] keeps the row: its bowling_impact is +infinity and so
    is the team's. *)
Lemma zero_economy_row_is_counted :
  let df := @zero_economy_table float _ in
  let teams := ["India"%string] in
  exists t,
    In t (team_strength (feature_engineering (filter_stage teams df))) /\
    ta_country t = "India"%string /\
    ta_bowling_impact t = infinity /\
    spec_bowling_mean teams df "India" = 2%float /\
    ta_bowling_impact t <> spec_bowling_mean teams df "India".
Proof.
  eexists. split; [left; reflexivity|].
  split; [reflexivity|]. split; [vm_compute; reflexivity|].
  split; [vm_compute; reflexivity|].
  intros H. apply (f_equal PrimFloat.is_infinity) in H.
  vm_compute in H. discriminate.
Qed.

(** In binary64 a positive number times +infinity is +infinity. *)
Lemma binary64_positive_times_infinity (w : float) :
  PrimFloat.ltb 0 w = true -> (w * infinity)%float = infinity.
Proof.
  intros H. apply Prim2SF_inj. rewrite mul_spec. rewrite ltb_spec in H.
  change (Prim2SF 0) with (S754_zero false) in H.
  change (Prim2SF infinity) with (S754_infinity false).
  destruct (Prim2SF w) as [s|s| |s m e]; simpl in H; try discriminate;
    destruct s; try discriminate; reflexivity.
Qed.

(** C8, amended.  No row is left out on account of its economy, and the
    pipeline has no warning to give: in any arithmetic every filtered row
    is in its team's group, and a team's batting_impact and
    bowling_impact are pandas' means over the whole group (NaN cells
    skipped, a NaN mean replaced by 0).  In binary64 a row with economy 0
    and positive wickets has bowling_impact +infinity; on
    [zero_economy_table] this makes the team's bowling_impact and
    power_index +infinity. *)
Theorem zero_economy_rows_are_kept :
  (forall (F : Type) (A : Arith F) (teams : list string) (df : list (PlayerRow F))
          (r : PlayerRow F),
      In r (filter_stage teams df) ->
      In (metric_engine r)
         (rows_of (country r) (feature_engineering (filter_stage teams df)))) /\
  (forall (F : Type) (A : Arith F) (rows : list (ScoredRow F)) (t : TeamAggregate F),
      In t (team_strength rows) ->
      ta_batting_impact t =
        fillna0 (Some (mean (map batting_impact (rows_of (ta_country t) rows)))) /\
      ta_bowling_impact t =
        fillna0 (Some (mean (map bowling_impact (rows_of (ta_country t) rows))))) /\
  (forall r : PlayerRow float,
      economy r = 0%float -> PrimFloat.ltb 0 (wickets r) = true ->
      bowling_impact (metric_engine r) = infinity) /\
  (map bowling_impact (feature_engineering (filter_stage ["India"%string] zero_economy_table))
     = [2; infinity] /\
   team_strength (feature_engineering (filter_stage ["India"%string] zero_economy_table))
     = [mkTeamAggregate "India" 3600 infinity 3120.8 infinity])%float.
Proof.
  split; [|split; [|split]].
  - intros F A teams df r Hr. apply rows_of_In. split; [|reflexivity].
    unfold feature_engineering. now apply in_map.
  - intros F A rows t Ht. apply team_strength_In in Ht. destruct Ht as [_ Ht].
    split; rewrite Ht at 1; reflexivity.
  - intros r He Hw. unfold metric_engine. cbn [bowling_impact]. rewrite He.
    now apply binary64_positive_times_infinity.
  - split; vm_compute; reflexivity.
Qed.

(** [zero_economy_rows_are_kept] at the zero-economy bowler. *)
Lemma zero_economy_rows_are_kept_witness :
  let r := @player float _ "India" (Some "Bowler"%string) "Player 2" 100 20 3 0 in
  economy r = 0%float /\
  In (metric_engine r)
     (rows_of "India" (feature_engineering (filter_stage ["India"%string] zero_economy_table))).
Proof.
  split; [reflexivity|].
  apply (proj1 zero_economy_rows_are_kept float binary64 ["India"%string]
               zero_economy_table
               (player "India" (Some "Bowler"%string) "Player 2" 100 20 3 0)).
  right. left. reflexivity.
Defined.

(** ** Ranking *)

(** ** The order of binary64 numbers *)

Lemma SFleb_rank (x y : spec_float) :
  SFleb x y = true <->
  x <> S754_nan /\ y <> S754_nan /\ rank_le (sf_rank x) (sf_rank y).
Proof.
  unfold SFleb.
  destruct x as [s1|s1| |s1 m1 e1], y as [s2|s2| |s2 m2 e2]; simpl;
    try (destruct s1); try (destruct s2); simpl;
    try (split; [intros _; repeat split; try discriminate; lia
                | intros [H1 [H2 H3]]; try reflexivity; try congruence; lia]);
    try (split; [discriminate | intros [H1 [H2 H3]]; try congruence; lia]).
  - change (Pos.compare_cont Eq m1 m2) with (Pos.compare m1 m2).
    destruct (Z.compare_spec e1 e2), (Pos.compare_spec m1 m2); simpl;
      (split; [intros Hc; try discriminate Hc; repeat split; try discriminate; lia
              | intros [_ [_ Hc]]; try reflexivity; lia]).
  - change (Pos.compare_cont Eq m1 m2) with (Pos.compare m1 m2).
    destruct (Z.compare_spec e1 e2), (Pos.compare_spec m1 m2); simpl;
      (split; [intros Hc; try discriminate Hc; repeat split; try discriminate; lia
              | intros [_ [_ Hc]]; try reflexivity; lia]).
Qed.

Lemma SFeqb_nan (x : spec_float) : SFeqb x x = true <-> x <> S754_nan.
Proof.
  unfold SFeqb. destruct x as [s|s| |s m e]; simpl.
  - split; [discriminate | reflexivity].
  - destruct s; (split; [discriminate | reflexivity]).
  - split; [discriminate | congruence].
  - change (Pos.compare_cont Eq m m) with (Pos.compare m m).
    destruct s; rewrite Z.compare_refl, Pos.compare_refl; simpl;
      (split; [discriminate | reflexivity]).
Qed.

Lemma rank_le_refl (p : Z * Z * Z) : rank_le p p.
Proof. destruct p as [[a b] c]. simpl. lia. Qed.

Lemma rank_le_trans (p q r : Z * Z * Z) : rank_le p q -> rank_le q r -> rank_le p r.
Proof.
  destruct p as [[a b] c], q as [[a' b'] c'], r as [[a'' b''] c'']. simpl. lia.
Qed.

Lemma rank_le_total (p q : Z * Z * Z) : rank_le p q \/ rank_le q p.
Proof. destruct p as [[a b] c], q as [[a' b'] c']. simpl. lia. Qed.

Lemma binary64_not_nan (x : float) :
  PrimFloat.is_nan x = false <-> Prim2SF x <> S754_nan.
Proof.
  unfold PrimFloat.is_nan. rewrite negb_false_iff, eqb_spec. apply SFeqb_nan.
Qed.

(** On the numbers that are not NaN, [<=] is a total preorder. *)
Lemma binary64_leb_refl (x : float) : is_nan x = false -> leb x x = true.
Proof.
  simpl. intros H. apply binary64_not_nan in H. rewrite leb_spec. apply SFleb_rank.
  repeat split; trivial. apply rank_le_refl.
Qed.

Lemma binary64_leb_trans (x y z : float) :
  leb x y = true -> leb y z = true -> leb x z = true.
Proof.
  simpl. rewrite !leb_spec, !SFleb_rank. intros [Hx [Hy H1]] [_ [Hz H2]].
  repeat split; trivial. now apply rank_le_trans with (sf_rank (Prim2SF y)).
Qed.

Lemma binary64_leb_total (x y : float) :
  is_nan x = false -> is_nan y = false -> leb x y = true \/ leb y x = true.
Proof.
  simpl. intros Hx Hy. apply binary64_not_nan in Hx, Hy. rewrite !leb_spec, !SFleb_rank.
  destruct (rank_le_total (sf_rank (Prim2SF x)) (sf_rank (Prim2SF y))); [left|right]; auto.
Qed.

(** ** Ranking, in any arithmetic whose [<=] is a total preorder on the
    numbers that are not NaN *)

Section RankingOrdered.
Context {F : Type} {A : Arith F}.
Hypothesis leb_refl : forall x : F, is_nan x = false -> leb x x = true.
Hypothesis leb_trans : forall x y z : F, leb x y = true -> leb y z = true -> leb x z = true.
Hypothesis leb_total :
  forall x y : F, is_nan x = false -> is_nan y = false -> leb x y = true \/ leb y x = true.

Lemma insert_desc_ordered {T : Type} (key : T -> F) (x : T) (l : list T) :
  is_nan (key x) = false ->
  Forall (fun y => is_nan (key y) = false) l ->
  StronglySorted (desc key) l -> StronglySorted (desc key) (insert_desc key x l).
Proof.
  intros Hx Hl Hs. induction Hs as [|y l Hs IH Hy]; simpl.
  - repeat constructor.
  - inversion Hl as [|? ? Hny Hnl]; subst.
    destruct (leb (key y) (key x)) eqn:E.
    + constructor; [now constructor|]. constructor; [exact E|].
      eapply Forall_impl; [|exact Hy]. intros z Hz. unfold desc in *.
      now apply leb_trans with (key y).
    + constructor; [now apply IH|].
      eapply Permutation_Forall; [apply insert_desc_perm|].
      constructor; [|exact Hy].
      unfold desc. destruct (leb_total (key x) (key y) Hx Hny) as [H|H]; [exact H|].
      rewrite H in E. discriminate E.
Qed.

Lemma filter_not_nan {T : Type} (key : T -> F) (l : list T) :
  Forall (fun y => is_nan (key y) = false) (filter (fun x => negb (is_nan (key x))) l).
Proof.
  apply Forall_forall. intros y Hy. apply filter_In in Hy.
  now apply negb_true_iff.
Qed.

(** The sort always has an outcome: the stable arrangement is one. *)
Lemma stable_sort_desc_outcome {T : Type} (key : T -> F) (l : list T) :
  sort_values_desc key l (stable_sort_desc key l).
Proof.
  unfold sort_values_desc, stable_sort_desc.
  exists (fold_right (insert_desc key) [] (filter (fun x => negb (is_nan (key x))) l)).
  split; [apply fold_insert_desc_perm|]. split; [|reflexivity].
  pose proof (filter_not_nan key l) as Hn.
  induction (filter (fun x => negb (is_nan (key x))) l) as [|x s IH]; simpl.
  - constructor.
  - inversion Hn as [|? ? Hx Hs]; subst. apply insert_desc_ordered; trivial.
    + eapply Permutation_Forall; [apply fold_insert_desc_perm | exact Hs].
    + now apply IH.
Qed.

(** An outcome is a rearrangement: the rows whose key is a number, in
    descending order, then the rows whose key is NaN. *)
Lemma sort_outcome_shape {T : Type} (key : T -> F) (l l' : list T) :
  sort_values_desc key l l' ->
  Permutation l l' /\
  exists s nans,
    l' = s ++ nans /\
    StronglySorted (fun x y => leb (key y) (key x) = true) s /\
    Forall (fun x => is_nan (key x) = false) s /\
    Forall (fun x => is_nan (key x) = true) nans.
Proof.
  intros H. split; [now apply sort_values_desc_perm in H|].
  destruct H as [s [Hp [Hs ->]]].
  exists s, (filter (fun x => is_nan (key x)) l). split; [reflexivity|].
  split; [exact Hs|]. split.
  - eapply Permutation_Forall; [exact Hp | apply filter_not_nan].
  - apply Forall_forall. intros y Hy. now apply filter_In in Hy.
Qed.

(** The first row of an outcome carries a key that no number among the
    keys exceeds. *)
Lemma sort_outcome_first {T : Type} (key : T -> F) (l l' : list T) :
  sort_values_desc key l l' -> l <> [] ->
  exists b, iloc0 l' = inr b /\ In b l /\
            forall x, In x l -> is_nan (key x) = false -> leb (key x) (key b) = true.
Proof.
  intros H Hne. pose proof (sort_values_desc_perm key l l' H) as Hperm.
  destruct H as [s [Hp [Hs ->]]].
  destruct s as [|b s].
  - destruct (filter (fun x => is_nan (key x)) l) as [|b n] eqn:En.
    + apply Permutation_sym, Permutation_nil in Hperm. contradiction.
    + exists b. split; [reflexivity|]. split.
      * apply (Permutation_in _ (Permutation_sym Hperm)). now left.
      * intros x Hx Hnx. exfalso.
        assert (Hin : In x (filter (fun x => negb (is_nan (key x))) l))
          by (apply filter_In; split; [exact Hx | now rewrite Hnx]).
        apply (Permutation_in _ Hp) in Hin. destruct Hin.
  - exists b. split; [reflexivity|]. split.
    + apply (Permutation_in _ (Permutation_sym Hperm)). now left.
    + intros x Hx Hnx.
      assert (Hin : In x (filter (fun x => negb (is_nan (key x))) l))
        by (apply filter_In; split; [exact Hx | now rewrite Hnx]).
      apply (Permutation_in _ Hp) in Hin. destruct Hin as [->|Hin].
      * now apply leb_refl.
      * inversion Hs as [|? ? _ Hall]; subst. rewrite Forall_forall in Hall.
        exact (Hall x Hin).
Qed.
End RankingOrdered.

Lemma groupby_mean_not_nil {F : Type} {A : Arith F}
      (metric : ScoredRow F -> F) (rows : list (ScoredRow F)) :
  rows <> [] -> groupby_mean metric rows <> [].
Proof.
  intros Hne H. unfold groupby_mean in H. apply map_eq_nil in H.
  apply group_keys_nil, map_eq_nil in H. contradiction.
Qed.

(** C9, as stated, fails.  In binary64, four teams are tied in pairs:
    in the grouped order Australia, England, India, Pakistan the power
    indices are 1000.15, 1000.15, 2600.6 and 2600.6.  Ties broken by
    first occurrence give India, Pakistan, Australia, England, and India
    as the best team.  The arrangement Pakistan, India, England,
    Australia, with both ties the other way round, is descending too, so
    it is an outcome of the sort as the script calls it (with pandas'
    default kind, which is not stable), and its best team is Pakistan. *)
Lemma tied_teams_reversed :
  let ts := team_strength
              (feature_engineering
                 (filter_stage ["Australia"; "England"; "India"; "Pakistan"]%string
                               (@four_teams float _))) in
  map ta_country ts = ["Australia"; "England"; "India"; "Pakistan"]%string /\
  map ta_power_index ts = [1000.15; 1000.15; 2600.6; 2600.6]%float /\
  map ta_country (stable_sort_desc ta_power_index ts)
    = ["India"; "Pakistan"; "Australia"; "England"]%string /\
  exists l' pakistan,
    sort_values_desc ta_power_index ts l' /\
    map ta_country l' = ["Pakistan"; "India"; "England"; "Australia"]%string /\
    ta_country pakistan = "Pakistan"%string /\
    best_team ts (inr pakistan) /\
    inr pakistan <> iloc0 (stable_sort_desc ta_power_index ts).
Proof.
  split; [vm_compute; reflexivity|]. split; [vm_compute; reflexivity|].
  split; [vm_compute; reflexivity|].
  assert (Hs : sort_values_desc ta_power_index
                 (team_strength
                    (feature_engineering
                       (filter_stage ["Australia"; "England"; "India"; "Pakistan"]%string
                                     (@four_teams float _))))
                 (rev (team_strength
                         (feature_engineering
                            (filter_stage ["Australia"; "England"; "India"; "Pakistan"]%string
                                          (@four_teams float _)))))).
  { eexists (rev _). split; [|split].
    - vm_compute. apply Permutation_rev.
    - vm_compute. repeat constructor.
    - vm_compute. reflexivity. }
  eexists (rev _), (mkTeamAggregate "Pakistan" _ _ _ _).
  split; [exact Hs|]. split; [vm_compute; reflexivity|].
  split; [reflexivity|]. split.
  - eexists. split; [exact Hs|]. vm_compute. reflexivity.
  - vm_compute. intros H. discriminate H.
Qed.

Section RankingExact.
Open Scope Q_scope.

Lemma sort_outcome_head {T : Type} (key : T -> Q) (l l' : list T) :
sort_values_desc key l l' -> l <> [] ->
exists b, iloc0 l' = inr b /\ In b l /\ forall x, In x l -> key x <= key b.
Proof.
intros Hs Hne. destruct l as [|x0 l0]; [congruence|].
destruct (sorted_head_max key _ l' x0 Hs (or_introl eq_refl)) as [b [Hb [Hin _]]].
exists b. split; [exact Hb|]. split; [exact Hin|].
intros x Hx. destruct (sorted_head_max key _ l' x Hs Hx) as [b' [Hb' [_ Hle]]].
rewrite Hb in Hb'. now injection Hb' as <-.
Qed.

Lemma sort_outcome_descending {T : Type} (key : T -> Q) (l l' : list T) :
sort_values_desc key l l' ->
Permutation l l' /\ StronglySorted (fun x y => key y <= key x) l'.
Proof.
rewrite exact_sort_values_desc. intros [Hp Hs]. split; [exact Hp|].
clear Hp. induction Hs as [|x s _ IH Hall]; constructor.
- apply IH.
- eapply Forall_impl; [|exact Hall]. intros y Hy. now apply Qle_bool_iff.
Qed.

Lemma groupby_mean_nonempty (metric : ScoredRow Q -> Q) (rows : list (ScoredRow Q)) :
rows <> [] -> groupby_mean metric rows <> [].
Proof.
intros Hne H. unfold groupby_mean in H. apply map_eq_nil in H.
apply group_keys_nil, map_eq_nil in H. contradiction.
Qed.

End RankingExact.

(** C9, amended.  In binary64, for a non-empty [team_strength] table:
    the best-team step has an outcome, and every outcome is a row of the
    table whose power_index no number among the power indices exceeds;
    every outcome of a ranking is a rearrangement of the table, the rows
    whose metric is a number in descending order, then the rows whose
    metric is NaN.  The same holds for the table and the highlighted team
    of [team_bar_chart] over a non-empty set of rows.  Which of several
    rows with the same metric comes first is not fixed. *)
Theorem best_team_is_maximal
  (ts : list (TeamAggregate float)) (metric : ScoredRow float -> float)
  (rows : list (ScoredRow float)) :
  ts <> [] -> rows <> [] ->
  (exists b, best_team ts (inr b)) /\
  (forall res, best_team ts res ->
     exists b, res = inr b /\ In b ts /\
       forall t, In t ts -> PrimFloat.is_nan (ta_power_index t) = false ->
                 PrimFloat.leb (ta_power_index t) (ta_power_index b) = true) /\
  (forall l', sort_values_desc ta_power_index ts l' ->
     Permutation ts l' /\
     exists s nans,
       l' = s ++ nans /\
       StronglySorted
         (fun x y => PrimFloat.leb (ta_power_index y) (ta_power_index x) = true) s /\
       Forall (fun x => PrimFloat.is_nan (ta_power_index x) = false) s /\
       Forall (fun x => PrimFloat.is_nan (ta_power_index x) = true) nans) /\
  (exists team_df best, team_bar_chart metric rows (inr (team_df, best))) /\
  (forall res, team_bar_chart metric rows res ->
     exists team_df top,
       res = inr (team_df, fst top) /\
       Permutation (groupby_mean metric rows) team_df /\
       (exists s nans,
          team_df = s ++ nans /\
          StronglySorted (fun x y => PrimFloat.leb (snd y) (snd x) = true) s /\
          Forall (fun x => PrimFloat.is_nan (snd x) = false) s /\
          Forall (fun x => PrimFloat.is_nan (snd x) = true) nans) /\
       iloc0 team_df = inr top /\
       forall x, In x team_df -> PrimFloat.is_nan (snd x) = false ->
                 PrimFloat.leb (snd x) (snd top) = true).
Proof.
  intros Hts Hrows.
  pose proof (groupby_mean_not_nil metric rows Hrows) as Hg.
  pose proof (@sort_outcome_first float binary64 binary64_leb_refl) as Hfirst.
  pose proof (@stable_sort_desc_outcome float binary64 binary64_leb_trans
                                        binary64_leb_total) as Hout.
  split; [|split; [|split; [|split]]].
  - destruct (Hfirst _ _ _ _ (Hout _ ta_power_index ts) Hts) as [b [Hb _]].
    exists b, (stable_sort_desc ta_power_index ts). split; [apply Hout | now rewrite Hb].
  - intros res [l' [Hs ->]].
    destruct (Hfirst _ _ _ _ Hs Hts) as [b [Hb [Hin Hmax]]].
    exists b. split; [exact Hb|]. split; [exact Hin | exact Hmax].
  - intros l' Hs. exact (sort_outcome_shape ta_power_index ts l' Hs).
  - destruct (Hfirst _ _ _ _ (Hout _ snd (groupby_mean metric rows)) Hg) as [top [Hb _]].
    exists (stable_sort_desc snd (groupby_mean metric rows)), (fst top).
    exists (stable_sort_desc snd (groupby_mean metric rows)).
    split; [apply Hout | now rewrite Hb].
  - intros res [team_df [Hs ->]].
    destruct (Hfirst _ _ _ _ Hs Hg) as [top [Hb [Hin Hmax]]].
    destruct (sort_outcome_shape snd _ team_df Hs) as [Hp Hshape].
    exists team_df, top. rewrite Hb. split; [reflexivity|].
    split; [exact Hp|]. split; [exact Hshape|]. split; [reflexivity|].
    intros x Hx. apply Hmax. now apply (Permutation_in _ (Permutation_sym Hp)).
Qed.

(** [best_team_is_maximal] on [four_teams]: the best team has power index
    2600.6, which no other team's exceeds. *)
Lemma best_team_is_maximal_witness :
  let ts := team_strength
              (feature_engineering
                 (filter_stage ["Australia"; "England"; "India"; "Pakistan"]%string
                               (@four_teams float _))) in
  exists b, best_team ts (inr b) /\
            ta_power_index b = 2600.6%float /\
            forall t, In t ts -> PrimFloat.leb (ta_power_index t) (ta_power_index b) = true.
Proof.
  intros ts.
  destruct (best_team_is_maximal ts batting_impact
              (feature_engineering
                 (filter_stage ["Australia"; "England"; "India"; "Pakistan"]%string
                               (@four_teams float _))))
    as [[b Hb] [Hmax _]].
  - discriminate.
  - discriminate.
  - exists b. destruct (Hmax _ Hb) as [b' [E [Hin H]]]. injection E as <-.
    split; [exact Hb|].
    assert (Hall : forall t, In t ts ->
                     PrimFloat.leb (ta_power_index t) (ta_power_index b) = true).
    { intros t Ht. apply H; [exact Ht|].
      destruct Ht as [<-|[<-|[<-|[<-|[]]]]]; reflexivity. }
    split; [|exact Hall].
    assert (Hp : In (mkTeamAggregate "Pakistan"%string 5200 2 0 2600.6)%float ts)
      by (right; right; right; left; vm_compute; reflexivity).
    pose proof (Hall _ Hp) as Hle. cbn [ta_power_index] in Hle.
    destruct Hin as [<-|[<-|[<-|[<-|[]]]]]; try (vm_compute; reflexivity);
      vm_compute in Hle; discriminate Hle.
Defined.

(** ** Invariants of the tables *)

(** Only rows of selected teams enter the derived table, and only selected
    teams get a row of [team_strength]. *)
Theorem filtered_rows_are_selected :
  forall (F : Type) (A : Arith F) (teams : list string) (df : list (PlayerRow F)),
    let rows := feature_engineering (filter_stage teams df) in
    (forall m, In m rows -> In (raw m) df /\ In (country (raw m)) teams) /\
    (forall t, In t (team_strength rows) -> In (ta_country t) teams).
Proof.
  intros F A teams df rows. split.
  - intros m Hm. apply in_map_iff in Hm. destruct Hm as [r [<- Hr]].
    now apply filter_stage_In in Hr.
  - intros t Ht. apply team_strength_In in Ht. destruct Ht as [Hc _].
    apply scored_countries in Hc. tauto.
Qed.

(** Team identifiers in [team_strength] are unique: one row per team. *)
Theorem team_identifiers_unique :
  forall (F : Type) (A : Arith F) (teams : list string) (df : list (PlayerRow F)),
    NoDup (map ta_country (team_strength (feature_engineering (filter_stage teams df)))).
Proof. intros. apply team_strength_unique. Qed.

(** In exact arithmetic the adjusted strength of a non-negative strength
    does not decrease as fewer overs are left. *)
Theorem pressure_adjustment_monotone (s : Q) (o1 o2 : Z) :
  (0 <= s)%Q -> (o1 <= o2)%Z ->
  (pressure_adjustment s o2 <= pressure_adjustment s o1)%Q.
Proof.
  intros Hs Ho.
  rewrite !pressure_adjustment_factor.
  assert (H : (pressure_factor o2 <= pressure_factor o1)%Q).
  { unfold pressure_factor.
    destruct (Z.leb_spec o1 5), (Z.leb_spec o2 5); try lia;
      destruct (Z.leb_spec o1 10), (Z.leb_spec o2 10); try lia; discriminate. }
  pose proof (pressure_factor_pos o2) as Hpos.
  apply Qmult_le_compat_nonneg; split; trivial.
  - apply Qle_refl.
  - now apply Qlt_le_weak.
Qed.

(** [pressure_adjustment_monotone] at strength 100, between 12 and 3 overs. *)
Lemma pressure_adjustment_monotone_witness :
  (pressure_adjustment 100 12 <= pressure_adjustment 100 3)%Q.
Proof.
  apply (pressure_adjustment_monotone 100 3 12); [discriminate | lia].
Defined.

(** ** Row order, in exact arithmetic *)

Section RowOrder.
Open Scope Q_scope.

Lemma filter_perm {T : Type} (f : T -> bool) (l l' : list T) :
  Permutation l l' -> Permutation (filter f l) (filter f l').
Proof.
  induction 1 as [|x l l' _ IH|x y l|l l' l'' _ IH1 _ IH2]; simpl.
  - constructor.
  - destruct (f x); [now constructor | exact IH].
  - destruct (f x), (f y); try apply Permutation_refl. apply perm_swap.
  - now apply perm_trans with (filter f l').
Qed.

Lemma fold_add_acc (xs : list Q) (a : Q) :
  fold_left Qplus xs a == a + fold_left Qplus xs 0.
Proof.
  revert a. induction xs as [|x xs IH]; intros a; simpl.
  - ring.
  - rewrite (IH (a + x)), (IH (0 + x)). ring.
Qed.

Lemma sum_perm (xs ys : list Q) : Permutation xs ys -> sum xs == sum ys.
Proof.
  unfold sum. change (@add Q exact) with Qplus. change (@zero Q exact) with 0.
  induction 1 as [|x l l' _ IH|x y l|l l' l'' _ IH1 _ IH2]; simpl.
  - reflexivity.
  - rewrite (fold_add_acc l), (fold_add_acc l'), IH. reflexivity.
  - rewrite (fold_add_acc l (0 + y + x)), (fold_add_acc l (0 + x + y)). ring.
  - now rewrite IH1.
Qed.

Lemma arith_mean_perm (xs ys : list Q) :
  Permutation xs ys -> arith_mean xs == arith_mean ys.
Proof.
  intros H. unfold arith_mean. change (@div Q exact) with Qdiv.
  rewrite (Permutation_length H), (sum_perm xs ys H). reflexivity.
Qed.

Lemma column_mean_perm (col : ScoredRow Q -> Q) (c : string) (rows rows' : list (ScoredRow Q)) :
  Permutation rows rows' ->
  mean (map col (rows_of c rows)) == mean (map col (rows_of c rows')).
Proof.
  intros H. rewrite !exact_mean.
  apply arith_mean_perm, Permutation_map, filter_perm, H.
Qed.

End RowOrder.

(** In exact arithmetic the aggregates do not depend on the order of the
    rows of the table: after any rearrangement of the input the same teams
    appear, each with the same batting_impact, bowling_impact,
    allrounder_index and power_index. *)
Theorem aggregation_order_independent
  (teams : list string) (df df' : list (PlayerRow Q)) (c : string) :
  Permutation df df' ->
  let rows := feature_engineering (filter_stage teams df) in
  let rows' := feature_engineering (filter_stage teams df') in
  (In c (map ta_country (team_strength rows)) <->
   In c (map ta_country (team_strength rows'))) /\
  (ta_batting_impact (team_row rows c) == ta_batting_impact (team_row rows' c) /\
   ta_bowling_impact (team_row rows c) == ta_bowling_impact (team_row rows' c) /\
   ta_allrounder_index (team_row rows c) == ta_allrounder_index (team_row rows' c) /\
   ta_power_index (team_row rows c) == ta_power_index (team_row rows' c))%Q.
Proof.
  intros Hdf rows rows'.
  assert (Hrows : Permutation rows rows')
    by (apply Permutation_map, filter_perm, Hdf).
  assert (Hbat : (ta_batting_impact (team_row rows c) == ta_batting_impact (team_row rows' c))%Q).
  { unfold team_row. cbn [ta_batting_impact]. rewrite !exact_fillna0.
    now apply column_mean_perm. }
  assert (Hbowl : (ta_bowling_impact (team_row rows c) == ta_bowling_impact (team_row rows' c))%Q).
  { unfold team_row. cbn [ta_bowling_impact]. rewrite !exact_fillna0.
    now apply column_mean_perm. }
  assert (Har : (ta_allrounder_index (team_row rows c) == ta_allrounder_index (team_row rows' c))%Q).
  { unfold team_row. cbn [ta_allrounder_index]. rewrite !lookup_ar_team.
    assert (Hars : Permutation (rows_of c (filter is_allrounder rows))
                               (rows_of c (filter is_allrounder rows')))
      by (apply filter_perm, filter_perm, Hrows).
    pose proof (column_mean_perm allrounder_index c _ _ (filter_perm is_allrounder _ _ Hrows)) as Hm.
    destruct (rows_of c (filter is_allrounder rows)) as [|m ars] eqn:E1;
      destruct (rows_of c (filter is_allrounder rows')) as [|m' ars'] eqn:E2.
    - reflexivity.
    - apply Permutation_nil in Hars. discriminate.
    - apply Permutation_sym, Permutation_nil in Hars. discriminate.
    - rewrite !exact_fillna0. exact Hm. }
  split; [|repeat split; trivial].
  - rewrite !team_strength_countries, !group_keys_In. split; apply Permutation_in.
    + now apply Permutation_map.
    + now apply Permutation_map, Permutation_sym.
  - unfold team_row in *.
    cbn [ta_batting_impact ta_bowling_impact ta_allrounder_index ta_power_index] in *.
    unfold power_index. change (@add Q exact) with Qplus. change (@mul Q exact) with Qmult.
    now rewrite Hbat, Hbowl, Har.
Qed.

(** [aggregation_order_independent] on [two_teams] with its first two rows
    swapped. *)
Lemma aggregation_order_independent_witness :
  let df' := [ player "India" (Some "Bowler"%string) "Player 2" 100 20 4 8;
               player "India" (Some "All-rounder"%string) "Player 1" 130 40 10 5;
               player "England" (Some "Batter"%string) "Player 3" 140 30 0 9 ] in
  (ta_power_index
     (team_row (feature_engineering (filter_stage ["India"%string] (@two_teams Q _))) "India")
   == ta_power_index
        (team_row (feature_engineering (filter_stage ["India"%string] df')) "India"))%Q.
Proof.
  intros df'.
  apply (aggregation_order_independent ["India"%string] two_teams df' "India"%string).
  apply perm_swap.
Defined.

(** ** Column names *)

Lemma normalize_char_idem (c : ascii) :
  normalize_char (normalize_char c) = normalize_char c.
Proof. destruct c as [[] [] [] [] [] [] [] []]; reflexivity. Qed.

Lemma normalize_char_not_space (c : ascii) :
  is_space c = false -> is_space (normalize_char c) = false.
Proof. destruct c as [[] [] [] [] [] [] [] []]; intros H; try reflexivity; discriminate H. Qed.

Lemma normalize_char_clean (c : ascii) :
  negb (Ascii.eqb (normalize_char c) " ") && negb (is_upper (normalize_char c)) = true.
Proof. destruct c as [[] [] [] [] [] [] [] []]; reflexivity. Qed.

Lemma normalize_char_fixed (c : ascii) :
  negb (Ascii.eqb c " ") && negb (is_upper c) = true -> normalize_char c = c.
Proof. destruct c as [[] [] [] [] [] [] [] []]; intros H; try reflexivity; discriminate H. Qed.

Lemma normalize_column_map (name : string) :
  normalize_column name = map_chars normalize_char (strip name).
Proof.
  unfold normalize_column. induction (strip name) as [|c s IH]; simpl.
  - reflexivity.
  - now rewrite IH.
Qed.

Lemma map_chars_compose (f : ascii -> ascii) (s : string) :
  (forall c, f (f c) = f c) -> map_chars f (map_chars f s) = map_chars f s.
Proof.
  intros Hf. induction s as [|c s IH]; simpl; [reflexivity | now rewrite Hf, IH].
Qed.

Lemma map_chars_length (f : ascii -> ascii) (s : string) :
  String.length (map_chars f s) = String.length s.
Proof. induction s as [|c s IH]; simpl; [reflexivity | now rewrite IH]. Qed.

Lemma lstrip_length (s : string) : (String.length (lstrip s) <= String.length s)%nat.
Proof.
  induction s as [|c s IH]; simpl; [lia|]. destruct (is_space c); simpl; lia.
Qed.

Lemma rstrip_length (s : string) : (String.length (rstrip s) <= String.length s)%nat.
Proof.
  induction s as [|c s IH]; simpl; [lia|].
  destruct (rstrip s) as [|d t]; [destruct (is_space c)|]; simpl in *; lia.
Qed.

(** A string is left alone by [lstrip] exactly when it does not start with
    whitespace. *)
Lemma lstrip_fixed (s : string) :
  lstrip s = s <->
  match s with EmptyString => True | String c _ => is_space c = false end.
Proof.
  destruct s as [|c s]; simpl; [tauto|].
  destruct (is_space c) eqn:E; split; trivial; try discriminate.
  intros H. pose proof (lstrip_length s) as Hl. rewrite H in Hl. simpl in Hl. lia.
Qed.

Lemma lstrip_lstrip (s : string) : lstrip (lstrip s) = lstrip s.
Proof.
  induction s as [|c s IH]; simpl; [reflexivity|].
  destruct (is_space c) eqn:E; [exact IH | simpl; now rewrite E].
Qed.

(** ... and by [rstrip] exactly when it does not end with whitespace. *)
Lemma rstrip_fixed_cons (c : ascii) (s : string) :
  rstrip (String c s) = String c s <->
  (s = EmptyString /\ is_space c = false) \/ (s <> EmptyString /\ rstrip s = s).
Proof.
  simpl. destruct (rstrip s) as [|d t] eqn:E.
  - destruct (is_space c) eqn:Ec; split.
    + discriminate.
    + intros [[_ H]|[Hne H]]; [discriminate | congruence].
    + intros H. injection H as <-. now left.
    + intros [[-> _]|[Hne H]]; [reflexivity | congruence].
  - split.
    + intros H. injection H as <-. right. split; [discriminate | reflexivity].
    + intros [[-> _]|[_ H]]; [discriminate | now rewrite H].
Qed.

Lemma rstrip_rstrip (s : string) : rstrip (rstrip s) = rstrip s.
Proof.
  induction s as [|c s IH]; [reflexivity|].
  simpl. destruct (rstrip s) as [|d t] eqn:E.
  - destruct (is_space c) eqn:Ec; simpl; [reflexivity | now rewrite Ec].
  - change (rstrip (String c (String d t)) = String c (String d t)).
    apply rstrip_fixed_cons. right. split; [discriminate | exact IH].
Qed.

Lemma rstrip_keeps_head (s : string) :
  lstrip s = s -> lstrip (rstrip s) = rstrip s.
Proof.
  intros H. apply lstrip_fixed in H. apply lstrip_fixed.
  destruct s as [|c s]; [exact I|]. simpl.
  destruct (rstrip s); [now rewrite H | exact H].
Qed.

Lemma strip_fixed (s : string) : strip s = s <-> lstrip s = s /\ rstrip s = s.
Proof.
  unfold strip. split.
  - intros H. assert (Hl : lstrip s = s).
    { rewrite <- H at 1. rewrite rstrip_keeps_head by apply lstrip_lstrip. exact H. }
    split; [exact Hl | now rewrite Hl in H].
  - intros [Hl Hr]. now rewrite Hl.
Qed.

Lemma strip_strip (s : string) : strip (strip s) = strip s.
Proof.
  apply strip_fixed. unfold strip. split.
  - apply rstrip_keeps_head, lstrip_lstrip.
  - apply rstrip_rstrip.
Qed.

Lemma map_chars_rstrip_fixed (f : ascii -> ascii) (s : string) :
  (forall c, is_space c = false -> is_space (f c) = false) ->
  rstrip s = s -> rstrip (map_chars f s) = map_chars f s.
Proof.
  intros Hf. induction s as [|c s IH]; intros H; [reflexivity|].
  apply rstrip_fixed_cons in H. change (map_chars f (String c s)) with (String (f c) (map_chars f s)).
  apply rstrip_fixed_cons. destruct H as [[-> Hc]|[Hne Hs]].
  - left. split; [reflexivity | now apply Hf].
  - right. split; [destruct s; [congruence | discriminate] | now apply IH].
Qed.

Lemma map_chars_strip_fixed (f : ascii -> ascii) (s : string) :
  (forall c, is_space c = false -> is_space (f c) = false) ->
  strip s = s -> strip (map_chars f s) = map_chars f s.
Proof.
  intros Hf H. apply strip_fixed in H. destruct H as [Hl Hr]. apply strip_fixed. split.
  - apply lstrip_fixed in Hl. apply lstrip_fixed. destruct s as [|c s]; simpl; auto.
  - now apply map_chars_rstrip_fixed.
Qed.

(** Normalising a column name twice is normalising it once; so loading an
    already normalised header changes nothing. *)
Theorem normalize_column_idempotent :
  (forall name, normalize_column (normalize_column name) = normalize_column name) /\
  (forall header, load_columns (load_columns header) = load_columns header).
Proof.
  assert (H : forall name, normalize_column (normalize_column name) = normalize_column name).
  { intros name. rewrite !normalize_column_map.
    rewrite (map_chars_strip_fixed normalize_char (strip name)
               normalize_char_not_space (strip_strip name)).
    apply map_chars_compose, normalize_char_idem. }
  split; [exact H|].
  intros header. unfold load_columns. rewrite map_map. apply map_ext. exact H.
Qed.

Lemma map_chars_all (f : ascii -> ascii) (p : ascii -> bool) (s : string) :
  (forall c, p (f c) = true) -> all_chars p (map_chars f s) = true.
Proof.
  intros Hf. induction s as [|c s IH]; simpl; [reflexivity | now rewrite Hf, IH].
Qed.

Lemma map_chars_fixed (f : ascii -> ascii) (p : ascii -> bool) (s : string) :
  (forall c, p c = true -> f c = c) -> all_chars p s = true -> map_chars f s = s.
Proof.
  intros Hf. induction s as [|c s IH]; simpl; [reflexivity|].
  intros H. apply andb_prop in H. destruct H as [Hc Hs]. now rewrite (Hf c Hc), IH.
Qed.

(** For an ASCII name: the normalised column name has no space, no
    upper-case letter and no whitespace at either end, and is never
    longer than the name it comes from; the ASCII names normalisation
    leaves unchanged are exactly those that are already of this form. *)
Theorem normalize_column_clean (name : string) :
  isascii name = true ->
  let clean := fun c => negb (Ascii.eqb c " ") && negb (is_upper c) in
  all_chars clean (normalize_column name) = true /\
  strip (normalize_column name) = normalize_column name /\
  (String.length (normalize_column name) <= String.length name)%nat /\
  (normalize_column name = name <-> strip name = name /\ all_chars clean name = true).
Proof.
  intros _ clean. rewrite normalize_column_map.
  assert (Hall : all_chars clean (map_chars normalize_char (strip name)) = true)
    by (apply map_chars_all, normalize_char_clean).
  assert (Hstrip : strip (map_chars normalize_char (strip name))
                   = map_chars normalize_char (strip name))
    by (apply map_chars_strip_fixed; [apply normalize_char_not_space | apply strip_strip]).
  split; [exact Hall|]. split; [exact Hstrip|]. split.
  - rewrite map_chars_length. unfold strip.
    pose proof (rstrip_length (lstrip name)). pose proof (lstrip_length name). lia.
  - split.
    + intros E. rewrite E in Hall, Hstrip. now split.
    + intros [Es Ea]. rewrite Es.
      apply (map_chars_fixed normalize_char clean); [apply normalize_char_fixed | exact Ea].
Qed.

(** [normalize_column_clean] at the header " Batting SR ", which becomes
    "batting_sr". *)
Lemma normalize_column_clean_witness :
  isascii " Batting SR " = true /\
  normalize_column " Batting SR " = "batting_sr"%string /\
  strip (normalize_column " Batting SR ") = normalize_column " Batting SR " /\
  (String.length (normalize_column " Batting SR ") <= String.length " Batting SR ")%nat /\
  normalize_column " Batting SR " <> " Batting SR "%string.
Proof.
  pose proof (normalize_column_clean " Batting SR " eq_refl) as H. cbv zeta in H.
  destruct H as [_ [Hs [Hl Hfix]]].
  split; [reflexivity|]. split; [reflexivity|]. split; [exact Hs|]. split; [exact Hl|].
  intros E. apply Hfix in E. destruct E as [E _]. discriminate E.
Defined.

(** ** Sidebar and group order *)

Lemma unique_In (c : string) (l : list string) : In c (unique l) <-> In c l.
Proof.
  induction l as [|x l IH]; simpl; [tauto|].
  rewrite filter_In, IH, negb_true_iff, String.eqb_neq.
  destruct (string_dec x c) as [->|Hne]; [tauto|].
  split; [tauto|]. intros [H|H]; [contradiction | right; split; congruence].
Qed.

Lemma unique_NoDup (l : list string) : NoDup (unique l).
Proof.
  induction l as [|x l IH]; simpl; constructor.
  - rewrite filter_In, negb_true_iff, String.eqb_neq. tauto.
  - now apply NoDup_filter.
Qed.

Lemma filter_all {T : Type} (f : T -> bool) (l : list T) :
  (forall x, In x l -> f x = true) -> filter f l = l.
Proof.
  induction l as [|x l IH]; intros H; simpl; [reflexivity|].
  rewrite (H x (or_introl eq_refl)). f_equal. apply IH. intros y Hy. apply H. now right.
Qed.

(** The default selection (every distinct country, once, in order of
    first appearance) filters nothing out; a selection keeps all the rows
    exactly when it names every country of the table. *)
Theorem default_selection_keeps_all :
  forall (F : Type) (A : Arith F) (df : list (PlayerRow F)),
    NoDup (default_teams df) /\
    (forall c, In c (default_teams df) <-> exists r, In r df /\ country r = c) /\
    filter_stage (default_teams df) df = df /\
    (forall teams, filter_stage teams df = df <->
                   forall c, In c (default_teams df) -> In c teams).
Proof.
  intros F A df. unfold default_teams.
  assert (Hin : forall c, In c (unique (map country df)) <-> exists r, In r df /\ country r = c).
  { intros c. rewrite unique_In, in_map_iff. split; intros [r [H1 H2]]; exists r; tauto. }
  assert (Hiff : forall teams, filter_stage teams df = df <->
                               forall c, In c (unique (map country df)) -> In c teams).
  { intros teams. split.
    - intros E c Hc. apply Hin in Hc. destruct Hc as [r [Hr <-]].
      rewrite <- E in Hr. now apply filter_stage_In in Hr.
    - intros H. apply filter_all. intros r Hr.
      assert (Hf : In r (filter_stage teams df)).
      { apply filter_stage_In. split; [exact Hr|]. apply H, Hin. now exists r. }
      unfold filter_stage in Hf. now apply filter_In in Hf. }
  split; [apply unique_NoDup|]. split; [exact Hin|]. split; [|exact Hiff].
  apply Hiff. auto.
Qed.

Lemma insert_key_sorted (c : string) (l : list string) :
  Sorted (fun a b => String.leb a b = true) l ->
  Sorted (fun a b => String.leb a b = true) (insert_key c l).
Proof.
  induction 1 as [|k l Hs IH Hk]; simpl.
  - repeat constructor.
  - destruct (String.leb c k) eqn:E.
    + constructor; [now constructor | now constructor].
    + constructor; [exact IH|].
      assert (Hkc : String.leb k c = true)
        by (destruct (String.leb_total c k) as [H|H]; [congruence | exact H]).
      destruct l as [|k' l']; simpl.
      * now constructor.
      * destruct (String.leb c k'); constructor; [exact Hkc|].
        now inversion Hk.
Qed.

Lemma sort_keys_sorted (l : list string) :
  Sorted (fun a b => String.leb a b = true) (sort_keys l).
Proof.
  induction l as [|c l IH]; simpl; [constructor | now apply insert_key_sorted].
Qed.

Lemma sorted_strict (l : list string) :
  NoDup l -> Sorted (fun a b => String.leb a b = true) l ->
  Sorted (fun a b => String.ltb a b = true) l.
Proof.
  induction 2 as [|k l Hs IH Hk]; constructor.
  - apply IH. now inversion H.
  - destruct Hk as [|k' l' Hkk']; constructor.
    assert (Hne : k <> k') by (inversion H; subst; simpl in *; intuition congruence).
    unfold String.leb in Hkk'. unfold String.ltb.
    destruct (String.compare k k') eqn:E; try reflexivity; try discriminate.
    apply String.compare_eq_iff in E. contradiction.
Qed.

Lemma group_keys_ascending (l : list string) :
  Sorted (fun a b => String.ltb a b = true) (group_keys l).
Proof.
  apply sorted_strict; [apply group_keys_NoDup | apply sort_keys_sorted].
Qed.

(** Grouping puts the teams in strictly ascending order of name, whatever
    the order of the rows: so are the rows of [team_strength] and of every
    per-team mean. *)
Theorem team_strength_ascending :
  forall (F : Type) (A : Arith F) (col : ScoredRow F -> F) (rows : list (ScoredRow F)),
    Sorted (fun a b => String.ltb a b = true) (map ta_country (team_strength rows)) /\
    Sorted (fun a b => String.ltb a b = true) (map fst (groupby_mean col rows)).
Proof.
  intros F A col rows. split.
  - rewrite team_strength_countries. apply group_keys_ascending.
  - unfold groupby_mean. rewrite map_map. simpl. rewrite map_id.
    apply group_keys_ascending.
Qed.

(** ** Looking a team up *)

Section Lookup.
Context {F : Type} {A : Arith F}.

Lemma filter_key (c : string) (keys : list string) :
  NoDup keys ->
  filter (fun k => String.eqb k c) keys = if in_dec string_dec c keys then [c] else [].
Proof.
  induction 1 as [|k keys Hk Hnd IH]; simpl; [reflexivity|].
  destruct (String.eqb_spec k c) as [->|Hne].
  - rewrite IH. destruct (string_dec c c); [|congruence].
    destruct (in_dec string_dec c keys); [contradiction | reflexivity].
  - rewrite IH. destruct (string_dec k c); [congruence|].
    destruct (in_dec string_dec c keys); reflexivity.
Qed.

Lemma filter_team_rows (rows : list (ScoredRow F)) (c : string) (keys : list string) :
  filter (fun t => String.eqb (ta_country t) c) (map (team_row rows) keys)
  = map (team_row rows) (filter (fun k => String.eqb k c) keys).
Proof.
  induction keys as [|k keys IH]; simpl; [reflexivity|].
  destruct (String.eqb k c); simpl; now rewrite IH.
Qed.

Lemma strength_of_present (ts : list (TeamAggregate F)) (c : string) :
  In c (map ta_country ts) -> exists v, strength_of ts c = inr v.
Proof.
  intros H. apply in_map_iff in H. destruct H as [t [Hc Ht]].
  unfold strength_of.
  destruct (filter (fun t => String.eqb (ta_country t) c) ts) as [|t' l] eqn:E.
  - assert (Hin : In t (filter (fun t => String.eqb (ta_country t) c) ts))
      by (apply filter_In; split; [exact Ht | now apply String.eqb_eq]).
    rewrite E in Hin. destruct Hin.
  - now exists (ta_power_index t').
Qed.

Lemma strength_of_absent (ts : list (TeamAggregate F)) (c : string) :
  ~ In c (map ta_country ts) -> strength_of ts c = inl IndexError.
Proof.
  intros H. unfold strength_of.
  destruct (filter (fun t => String.eqb (ta_country t) c) ts) as [|t' l] eqn:E;
    [reflexivity|].
  exfalso. apply H.
  assert (Hin : In t' (filter (fun t => String.eqb (ta_country t) c) ts))
    by (rewrite E; now left).
  apply filter_In in Hin. destruct Hin as [Hin Hc]. apply String.eqb_eq in Hc.
  apply in_map_iff. now exists t'.
Qed.

End Lookup.

(** Looking up a team in [team_strength] gives the power index of that
    team's own row when the team has a row among the scored rows, and
    raises IndexError when it has none. *)
Theorem strength_of_team_strength :
  forall (F : Type) (A : Arith F) (rows : list (ScoredRow F)) (c : string),
    (In c (map (fun m => country (raw m)) rows) ->
     strength_of (team_strength rows) c = inr (ta_power_index (team_row rows c))) /\
    (~ In c (map (fun m => country (raw m)) rows) ->
     strength_of (team_strength rows) c = inl IndexError).
Proof.
  intros F A rows c. unfold strength_of, team_strength.
  rewrite filter_team_rows, (filter_key c _ (group_keys_NoDup _)).
  destruct (in_dec string_dec c _) as [Hin|Hnin]; rewrite group_keys_In in *.
  - split; [reflexivity | contradiction].
  - split; [contradiction | reflexivity].
Qed.

(** ** The simulation tab *)

Section SimulationTab.
Context {F : Type} {A : Arith F}.

Lemma other_teams_In (teams : list string) (a b : string) :
  In b (other_teams teams (Some a)) <-> In b teams /\ b <> a.
Proof.
  unfold other_teams. now rewrite filter_In, negb_true_iff, String.eqb_neq.
Qed.

Lemma other_teams_length (teams : list string) (a : string) :
  NoDup teams -> In a teams ->
  S (List.length (other_teams teams (Some a))) = List.length teams.
Proof.
  unfold other_teams. induction 1 as [|k teams Hk Hnd IH]; intros Hin; [destruct Hin|].
  simpl. destruct (String.eqb_spec k a) as [->|Hne]; simpl.
  - f_equal. f_equal. apply filter_all. intros b Hb.
    apply negb_true_iff, String.eqb_neq. intros ->. contradiction.
  - f_equal. apply IH. destruct Hin; [contradiction | assumption].
Qed.

End SimulationTab.

(** The two teams of a simulation are always two different selected
    teams; with fewer than two different teams selected the second
    selectbox has no option, its value is [None], and the lookup of its
    strength raises IndexError. *)
Theorem simulation_tab_teams :
  forall (F : Type) (A : Arith F) (teams : list string) (ts : list (TeamAggregate F))
         (choice1 choice2 : nat) (overs_left : Z),
    (forall team1 team2 probs,
        simulation_tab teams ts choice1 choice2 overs_left = inr (team1, team2, probs) ->
        exists a b s1 s2,
          team1 = Some a /\ team2 = Some b /\ a <> b /\ In a teams /\ In b teams /\
          strength_of ts a = inr s1 /\ strength_of ts b = inr s2 /\
          probs = win_probability s1 s2 overs_left) /\
    ((forall a b, In a teams -> In b teams -> a = b) ->
     simulation_tab teams ts choice1 choice2 overs_left = inl IndexError).
Proof.
  intros F A teams ts c1 c2 overs. unfold simulation_tab, selectbox. split.
  - intros team1 team2 probs H.
    destruct (nth_error teams c1) as [a|] eqn:E1; [|discriminate H].
    simpl in H. destruct (strength_of ts a) as [e|s1] eqn:Ea; [discriminate H|].
    simpl in H.
    destruct (nth_error (other_teams teams (Some a)) c2) as [b|] eqn:E2; [|discriminate H].
    simpl in H. destruct (strength_of ts b) as [e|s2] eqn:Eb; [discriminate H|].
    simpl in H. injection H as <- <- <-.
    apply nth_error_In in E1, E2. apply other_teams_In in E2. destruct E2 as [Hb Hne].
    exists a, b, s1, s2. repeat split; trivial. congruence.
  - intros Hall.
    destruct (nth_error teams c1) as [a|] eqn:E1; [|reflexivity].
    simpl. destruct (strength_of ts a) as [e|s1] eqn:Ea.
    { unfold strength_of in Ea.
      destruct (map ta_power_index _); [injection Ea as <-; reflexivity | discriminate Ea]. }
    simpl.
    destruct (nth_error (other_teams teams (Some a)) c2) as [b|] eqn:E2; [|reflexivity].
    exfalso. apply nth_error_In in E1, E2. apply other_teams_In in E2.
    destruct E2 as [Hb Hne]. apply Hne. now apply Hall.
Qed.

(** With at least two selected teams, each with a row in the aggregate
    table, and choices within the options shown, the simulation tab does
    not raise. *)
Theorem simulation_tab_succeeds
  (F : Type) (A : Arith F) (teams : list string) (ts : list (TeamAggregate F))
  (choice1 choice2 : nat) (overs_left : Z) :
  NoDup teams ->
  (forall t, In t teams -> In t (map ta_country ts)) ->
  (choice1 < List.length teams)%nat ->
  (S choice2 < List.length teams)%nat ->
  exists a b probs,
    simulation_tab teams ts choice1 choice2 overs_left = inr (Some a, Some b, probs).
Proof.
  intros Hnd Hts H1 H2. unfold simulation_tab, selectbox.
  destruct (nth_error teams choice1) as [a|] eqn:E1;
    [|apply nth_error_None in E1; lia].
  assert (Ha : In a teams) by (eapply nth_error_In; exact E1).
  pose proof (other_teams_length teams a Hnd Ha) as Hlen.
  destruct (nth_error (other_teams teams (Some a)) choice2) as [b|] eqn:E2;
    [|apply nth_error_None in E2; lia].
  assert (Hb : In b teams) by (apply nth_error_In, other_teams_In in E2; tauto).
  destruct (strength_of_present ts a (Hts a Ha)) as [s1 Hs1].
  destruct (strength_of_present ts b (Hts b Hb)) as [s2 Hs2].
  exists a, b, (win_probability s1 s2 overs_left).
  simpl. rewrite Hs1. simpl. rewrite Hs2. reflexivity.
Qed.

(** [simulation_tab_succeeds] on the aggregates of [two_teams], in
    binary64, with the default choices. *)
Lemma simulation_tab_succeeds_witness :
  exists a b probs,
    simulation_tab ["India"; "England"]%string
      (team_strength (feature_engineering
                        (filter_stage ["India"; "England"]%string (@two_teams float _))))
      0 0 10 = inr (Some a, Some b, probs).
Proof.
  apply simulation_tab_succeeds.
  - repeat constructor; simpl; intuition discriminate.
  - intros t [<-|[<-|[]]]; vm_compute; tauto.
  - simpl. lia.
  - simpl. lia.
Defined.

(** ** More on the win probabilities *)

Lemma win_probability_exact (s1 s2 : Q) (overs_left : Z) :
  ~ (s1 + s2 == 0)%Q ->
  (fst (win_probability s1 s2 overs_left) == s1 / (s1 + s2) /\
   snd (win_probability s1 s2 overs_left) == s2 / (s1 + s2))%Q.
Proof.
  intros Hs. unfold win_probability. simpl.
  pose proof (pressure_factor_pos overs_left) as Hm.
  rewrite !pressure_adjustment_factor.
  set (m := pressure_factor overs_left) in *.
  assert (Hd : ~ (s1 * m + s2 * m == 0)%Q).
  { intros E. apply Hs. assert (E' : ((s1 + s2) * m == 0)%Q) by (rewrite <- E; ring).
    apply Qmult_integral in E'. destruct E' as [E'|E']; [exact E' | lra]. }
  split; field; split; trivial; lra.
Qed.

(** In exact arithmetic the pressure adjustment cancels out of the
    quotient: whatever the overs left, the two probabilities are
    s1 / (s1 + s2) and s2 / (s1 + s2), so moving the slider does not
    change them. *)
Theorem overs_left_cancels (s1 s2 : Q) (o1 o2 : Z) :
  ~ (s1 + s2 == 0)%Q ->
  (fst (win_probability s1 s2 o1) == s1 / (s1 + s2) /\
   snd (win_probability s1 s2 o1) == s2 / (s1 + s2) /\
   fst (win_probability s1 s2 o1) == fst (win_probability s1 s2 o2) /\
   snd (win_probability s1 s2 o1) == snd (win_probability s1 s2 o2))%Q.
Proof.
  intros Hs.
  destruct (win_probability_exact s1 s2 o1 Hs) as [H1 H1'].
  destruct (win_probability_exact s1 s2 o2 Hs) as [H2 H2'].
  repeat split; trivial; [now rewrite H1, H2 | now rewrite H1', H2'].
Qed.

(** [overs_left_cancels] at power indices 3 and 1, between 3 and 15 overs. *)
Lemma overs_left_cancels_witness :
  (fst (win_probability 3 1 3) == fst (win_probability 3 1 15))%Q.
Proof.
  apply (overs_left_cancels 3 1 3 15). discriminate.
Defined.

(** In exact arithmetic, swapping the two teams swaps the two
    probabilities: the chances of A against B and of B against A add up
    to 1. *)
Theorem win_probability_swap (s1 s2 : Q) (overs_left : Z) :
  ~ (s1 + s2 == 0)%Q ->
  (fst (win_probability s2 s1 overs_left) == snd (win_probability s1 s2 overs_left) /\
   snd (win_probability s2 s1 overs_left) == fst (win_probability s1 s2 overs_left) /\
   fst (win_probability s1 s2 overs_left) + fst (win_probability s2 s1 overs_left) == 1)%Q.
Proof.
  intros Hs.
  assert (Hs' : ~ (s2 + s1 == 0)%Q) by (intros E; apply Hs; rewrite <- E; ring).
  destruct (win_probability_exact s1 s2 overs_left Hs) as [H1 H2].
  destruct (win_probability_exact s2 s1 overs_left Hs') as [H3 H4].
  rewrite H1, H2, H3, H4. repeat split; field; trivial.
Qed.

(** [win_probability_swap] at power indices 3 and 1 with 3 overs left. *)
Lemma win_probability_swap_witness :
  (fst (win_probability 3 1 3) + fst (win_probability 1 3 3) == 1)%Q.
Proof.
  apply (win_probability_swap 3 1 3). discriminate.
Defined.

Lemma binary64_zero_cases (s : float) :
  PrimFloat.eqb s 0 = true -> s = 0%float \/ s = (-0)%float.
Proof.
  intros H. rewrite eqb_spec in H.
  change (Prim2SF 0) with (S754_zero false) in H.
  destruct (Prim2SF s) as [b|b| |b m e] eqn:E; simpl in H;
    try discriminate; try (destruct b; discriminate).
  destruct b; [right | left]; apply Prim2SF_inj; rewrite E; reflexivity.
Qed.

(** In binary64, when both strengths are zero the quotient is 0 / 0: the
    simulation does not raise, and both probabilities are NaN, whatever
    the overs left. *)
Theorem zero_strengths_give_nan (s1 s2 : float) (overs_left : Z) :
  PrimFloat.eqb s1 0 = true -> PrimFloat.eqb s2 0 = true ->
  PrimFloat.is_nan (fst (win_probability s1 s2 overs_left)) = true /\
  PrimFloat.is_nan (snd (win_probability s1 s2 overs_left)) = true.
Proof.
  intros H1 H2. apply binary64_zero_cases in H1, H2.
  unfold win_probability, pressure_adjustment.
  destruct (overs_left <=? 5)%Z; [|destruct (overs_left <=? 10)%Z];
    destruct H1 as [-> | ->], H2 as [-> | ->]; vm_compute; split; reflexivity.
Qed.

(** [zero_strengths_give_nan] at two strengths of 0.0. *)
Lemma zero_strengths_give_nan_witness :
  PrimFloat.is_nan (fst (@win_probability float _ 0%float 0%float 10)) = true.
Proof.
  apply (zero_strengths_give_nan 0 0 10); reflexivity.
Defined.

(** ** Bounds on the aggregates, in exact arithmetic *)

Section Bounds.
Open Scope Q_scope.

Lemma count_succ {T : Type} (x : T) (l : list T) :
  inject_Z (Z.of_nat (List.length (x :: l))) == inject_Z (Z.of_nat (List.length l)) + 1.
Proof.
  simpl List.length. rewrite Nat2Z.inj_succ, <- Z.add_1_r, inject_Z_plus. reflexivity.
Qed.

Lemma count_pos {T : Type} (l : list T) :
  l <> [] -> 0 < inject_Z (Z.of_nat (List.length l)).
Proof.
  intros H. destruct l as [|x l]; [congruence|].
  rewrite count_succ.
  assert (0 <= inject_Z (Z.of_nat (List.length l))).
  { change 0 with (inject_Z 0). rewrite <- Zle_Qle. lia. }
  set (n := inject_Z (Z.of_nat (List.length l))) in *. lra.
Qed.

Lemma sum_cons (x : Q) (xs : list Q) : sum (x :: xs) == x + sum xs.
Proof.
  unfold sum. change (@add Q exact) with Qplus. change (@zero Q exact) with 0.
  simpl. rewrite fold_add_acc. ring.
Qed.

Lemma sum_lower (xs : list Q) (lo : Q) :
  (forall x, In x xs -> lo <= x) ->
  inject_Z (Z.of_nat (List.length xs)) * lo <= sum xs.
Proof.
  induction xs as [|x xs IH]; intros H.
  - change (0 * lo <= 0). lra.
  - rewrite count_succ, sum_cons.
    assert (lo <= x) by (apply H; now left).
    assert (inject_Z (Z.of_nat (List.length xs)) * lo <= sum xs)
      by (apply IH; intros y Hy; apply H; now right).
    set (n := inject_Z (Z.of_nat (List.length xs))) in *. lra.
Qed.

Lemma sum_upper (xs : list Q) (hi : Q) :
  (forall x, In x xs -> x <= hi) ->
  sum xs <= inject_Z (Z.of_nat (List.length xs)) * hi.
Proof.
  induction xs as [|x xs IH]; intros H.
  - change (0 <= 0 * hi). lra.
  - rewrite count_succ, sum_cons.
    assert (x <= hi) by (apply H; now left).
    assert (sum xs <= inject_Z (Z.of_nat (List.length xs)) * hi)
      by (apply IH; intros y Hy; apply H; now right).
    set (n := inject_Z (Z.of_nat (List.length xs))) in *. lra.
Qed.

Lemma arith_mean_lower (xs : list Q) (lo : Q) :
  xs <> [] -> (forall x, In x xs -> lo <= x) -> lo <= arith_mean xs.
Proof.
  intros Hne H. unfold arith_mean. change (@div Q exact) with Qdiv.
  change (@of_Z Q exact) with inject_Z.
  apply Qle_shift_div_l; [now apply count_pos|].
  rewrite Qmult_comm. now apply sum_lower.
Qed.

Lemma arith_mean_upper (xs : list Q) (hi : Q) :
  xs <> [] -> (forall x, In x xs -> x <= hi) -> arith_mean xs <= hi.
Proof.
  intros Hne H. unfold arith_mean. change (@div Q exact) with Qdiv.
  change (@of_Z Q exact) with inject_Z.
  apply Qle_shift_div_r; [now apply count_pos|].
  rewrite Qmult_comm. now apply sum_upper.
Qed.

(** The mean of a column over a team with at least one row lies between
    any two bounds of the column on the team's rows. *)
Lemma column_mean_between (col : ScoredRow Q -> Q) (rows : list (ScoredRow Q))
      (c : string) (lo hi : Q) :
  In c (map (fun m => country (raw m)) rows) ->
  (forall m, In m rows -> country (raw m) = c -> lo <= col m <= hi) ->
  lo <= mean (map col (rows_of c rows)) <= hi.
Proof.
  intros Hc H. rewrite exact_mean.
  assert (Hne : map col (rows_of c rows) <> []).
  { intros E. apply map_eq_nil in E. apply rows_of_nil in E. contradiction. }
  assert (Hb : forall x, In x (map col (rows_of c rows)) -> lo <= x <= hi).
  { intros x Hx. apply in_map_iff in Hx. destruct Hx as [m [<- Hm]].
    apply rows_of_In in Hm. destruct Hm as [Hm Hcm]. now apply H. }
  split; [apply arith_mean_lower | apply arith_mean_upper]; trivial;
    intros x Hx; now apply Hb.
Qed.

End Bounds.

(** In exact arithmetic a mean never leaves the range of what it
    averages: a team's batting_impact and bowling_impact lie between the
    smallest and the largest value of that column among the team's rows,
    and so does every bar of [team_bar_chart]. *)
Theorem team_means_between
  (rows : list (ScoredRow Q)) (c : string) (col : ScoredRow Q -> Q)
  (lo_bat hi_bat lo_bowl hi_bowl lo hi : Q) :
  (forall m, In m rows -> country (raw m) = c ->
             lo_bat <= batting_impact m <= hi_bat /\
             lo_bowl <= bowling_impact m <= hi_bowl /\
             lo <= col m <= hi)%Q ->
  (forall t, In t (team_strength rows) -> ta_country t = c ->
             lo_bat <= ta_batting_impact t <= hi_bat /\
             lo_bowl <= ta_bowling_impact t <= hi_bowl)%Q /\
  (forall v, In (c, v) (groupby_mean col rows) -> lo <= v <= hi)%Q.
Proof.
  intros H. split.
  - intros t Ht Hc. apply team_strength_In in Ht. destruct Ht as [Hin Ht].
    rewrite Hc in *. rewrite Ht. unfold team_row.
    cbn [ta_batting_impact ta_bowling_impact]. rewrite !exact_fillna0.
    split; apply column_mean_between; trivial; intros m Hm Hcm;
      destruct (H m Hm Hcm) as [H1 [H2 _]]; assumption.
  - intros v Hv. unfold groupby_mean in Hv. apply in_map_iff in Hv.
    destruct Hv as [k [E Hk]]. injection E as -> <-.
    rewrite group_keys_In in Hk.
    apply column_mean_between; trivial. intros m Hm Hcm.
    now destruct (H m Hm Hcm) as [_ [_ H3]].
Qed.

(** [team_means_between] for India in [two_teams]: batting impacts 5200
    and 2000, bowling impacts 2 and 1/2. *)
Lemma team_means_between_witness :
  let rows := feature_engineering (filter_stage ["India"%string] (@two_teams Q _)) in
  (2000 <= ta_batting_impact (team_row rows "India") <= 5200 /\
   (1 # 2) <= ta_bowling_impact (team_row rows "India") <= 2)%Q.
Proof.
  intros rows.
  refine (proj1 (team_means_between rows "India" batting_impact
                                    2000 5200 (1 # 2) 2 2000 5200 _)
                (team_row rows "India") _ eq_refl).
  - intros m Hm _. destruct Hm as [<-|[<-|[]]]; vm_compute; intuition discriminate.
  - left. reflexivity.
Defined.

Section NonNegative.
Open Scope Q_scope.

Lemma metric_engine_nonneg (r : PlayerRow Q) :
  0 <= batting_sr r -> 0 <= batting_average r -> 0 <= wickets r -> 0 < economy r ->
  0 <= batting_impact (metric_engine r) /\
  0 <= bowling_impact (metric_engine r) /\
  0 <= allrounder_index (metric_engine r).
Proof.
  intros Hsr Havg Hw He. unfold metric_engine.
  cbn [batting_impact bowling_impact allrounder_index].
  change (@mul Q exact) with Qmult. change (@add Q exact) with Qplus.
  change (@div Q exact) with Qdiv. change (@one Q exact) with 1.
  assert (Hbat : 0 <= batting_sr r * batting_average r) by now apply Qmult_le_0_compat.
  assert (Hbowl : 0 <= wickets r * (1 / economy r)).
  { apply Qmult_le_0_compat; [exact Hw|]. apply Qle_shift_div_l; [exact He | lra]. }
  assert (H6 : 0 <= @c0_6 Q _) by discriminate.
  assert (H4 : 0 <= @c0_4 Q _) by discriminate.
  split; [exact Hbat|]. split; [exact Hbowl|].
  pose proof (Qmult_le_0_compat _ _ H6 Hbat). pose proof (Qmult_le_0_compat _ _ H4 Hbowl).
  lra.
Qed.

Lemma column_mean_nonneg (col : ScoredRow Q -> Q) (l : list (ScoredRow Q)) :
  l <> [] -> (forall m, In m l -> 0 <= col m) -> 0 <= mean (map col l).
Proof.
  intros Hne H. rewrite exact_mean. apply arith_mean_lower.
  - intros E. apply map_eq_nil in E. contradiction.
  - intros x Hx. apply in_map_iff in Hx. destruct Hx as [m [<- Hm]]. now apply H.
Qed.

Lemma strength_of_row (ts : list (TeamAggregate Q)) (team : string) (s : Q) :
  strength_of ts team = inr s -> exists t, In t ts /\ ta_power_index t = s.
Proof.
  unfold strength_of. intros H.
  destruct (filter (fun t => String.eqb (ta_country t) team) ts) as [|t l] eqn:E;
    [discriminate H|].
  simpl in H. injection H as <-. exists t. split; [|reflexivity].
  assert (Hin : In t (filter (fun t => String.eqb (ta_country t) team) ts))
    by (rewrite E; now left).
  now apply filter_In in Hin.
Qed.

End NonNegative.

(** In exact arithmetic, on a table whose strike rates, averages and
    wickets are non-negative and whose economies are positive, every team
    has non-negative impacts and a non-negative power index, and every
    strength the simulation reads, adjusted or not, is non-negative. *)
Theorem nonnegative_pipeline (teams : list string) (df : list (PlayerRow Q)) :
  (forall r, In r df ->
             0 <= batting_sr r /\ 0 <= batting_average r /\
             0 <= wickets r /\ 0 < economy r)%Q ->
  let ts := team_strength (feature_engineering (filter_stage teams df)) in
  (forall t, In t ts ->
             0 <= ta_batting_impact t /\ 0 <= ta_bowling_impact t /\
             0 <= ta_allrounder_index t /\ 0 <= ta_power_index t)%Q /\
  (forall team s overs_left,
      strength_of ts team = inr s ->
      0 <= s /\ 0 <= pressure_adjustment s overs_left)%Q.
Proof.
  intros Hdf ts.
  set (rows := feature_engineering (filter_stage teams df)) in *.
  assert (Hrows : forall m, In m rows ->
            (0 <= batting_impact m /\ 0 <= bowling_impact m /\ 0 <= allrounder_index m)%Q).
  { intros m Hm. apply in_map_iff in Hm. destruct Hm as [r [<- Hr]].
    apply filter_stage_In in Hr. destruct Hr as [Hr _].
    destruct (Hdf r Hr) as [H1 [H2 [H3 H4]]]. now apply metric_engine_nonneg. }
  assert (Hts : forall t, In t ts ->
            (0 <= ta_batting_impact t /\ 0 <= ta_bowling_impact t /\
             0 <= ta_allrounder_index t /\ 0 <= ta_power_index t)%Q).
  { intros t Ht. apply team_strength_In in Ht. destruct Ht as [Hc Ht].
    assert (Hne : rows_of (ta_country t) rows <> [])
      by (intros E; apply rows_of_nil in E; contradiction).
    rewrite Ht. unfold team_row.
    cbn [ta_batting_impact ta_bowling_impact ta_allrounder_index ta_power_index].
    rewrite !exact_fillna0.
    assert (Hbat : (0 <= mean (map batting_impact (rows_of (ta_country t) rows)))%Q).
    { apply column_mean_nonneg; [exact Hne|]. intros m Hm.
      apply rows_of_In in Hm. now apply Hrows. }
    assert (Hbowl : (0 <= mean (map bowling_impact (rows_of (ta_country t) rows)))%Q).
    { apply column_mean_nonneg; [exact Hne|]. intros m Hm.
      apply rows_of_In in Hm. now apply Hrows. }
    assert (Har : (0 <= fillna0 (lookup (ta_country t) (ar_team rows)))%Q).
    { rewrite lookup_ar_team.
      destruct (rows_of (ta_country t) (filter is_allrounder rows)) as [|m ars] eqn:E.
      - apply Qle_refl.
      - rewrite exact_fillna0. apply column_mean_nonneg; [discriminate|].
        intros m' Hm'. rewrite <- E in Hm'. apply rows_of_In in Hm'.
        destruct Hm' as [Hm' _]. apply filter_In in Hm'. now apply Hrows. }
    split; [exact Hbat|]. split; [exact Hbowl|]. split; [exact Har|].
    unfold power_index. change (@mul Q exact) with Qmult. change (@add Q exact) with Qplus.
    assert (H5 : (0 <= @c0_5 Q _)%Q) by discriminate.
    assert (H3 : (0 <= @c0_3 Q _)%Q) by discriminate.
    assert (H2 : (0 <= @c0_2 Q _)%Q) by discriminate.
    pose proof (Qmult_le_0_compat _ _ H5 Hbat).
    pose proof (Qmult_le_0_compat _ _ H3 Hbowl).
    pose proof (Qmult_le_0_compat _ _ H2 Har).
    lra. }
  split; [exact Hts|].
  intros team s overs Hs. apply strength_of_row in Hs. destruct Hs as [t [Ht <-]].
  destruct (Hts t Ht) as [_ [_ [_ Hp]]]. split; [exact Hp|].
  rewrite pressure_adjustment_factor. apply Qmult_le_0_compat; [exact Hp|].
  apply Qlt_le_weak, pressure_factor_pos.
Qed.

(** [nonnegative_pipeline] on [two_teams]. *)
Lemma nonnegative_pipeline_witness :
  let rows := feature_engineering
                (filter_stage ["India"; "England"]%string (@two_teams Q _)) in
  (0 <= ta_power_index (team_row rows "India"))%Q.
Proof.
  intros rows.
  refine (proj2 (proj2 (proj2 (proj1 (nonnegative_pipeline
            ["India"; "England"]%string two_teams _) (team_row rows "India") _)))).
  - intros r Hr. destruct Hr as [<-|[<-|[<-|[]]]]; vm_compute; intuition discriminate.
  - right. left. reflexivity.
Defined.

(** ** The bar chart *)

Lemma groupby_mean_keys_NoDup {F : Type} {A : Arith F}
      (col : ScoredRow F -> F) (rows : list (ScoredRow F)) :
  NoDup (map fst (groupby_mean col rows)).
Proof.
  unfold groupby_mean. rewrite map_map. simpl. rewrite map_id. apply group_keys_NoDup.
Qed.

(** Whenever [team_bar_chart] returns, exactly one bar carries the white
    edge, the first one, and the chart has one bar per team of the rows it
    was given. *)
Theorem bar_chart_highlights_first
  (F : Type) (A : Arith F) (metric : ScoredRow F -> F) (rows : list (ScoredRow F))
  (team_df : list (string * F)) (best : string) :
  team_bar_chart metric rows (inr (team_df, best)) ->
  exists top rest,
    team_df = top :: rest /\ best = fst top /\
    bar_highlights team_df best = true :: map (fun _ => false) rest /\
    Permutation (map fst team_df) (group_keys (map (fun m => country (raw m)) rows)).
Proof.
  intros [df' [Hs Hres]].
  pose proof (sort_values_desc_perm _ _ _ Hs) as Hp.
  destruct df' as [|top rest]; [discriminate Hres|].
  simpl in Hres. injection Hres as -> ->.
  assert (Hnd : NoDup (map fst (top :: rest))).
  { eapply Permutation_NoDup; [apply Permutation_map, Hp | apply groupby_mean_keys_NoDup]. }
  exists top, rest. split; [reflexivity|]. split; [reflexivity|]. split.
  - unfold bar_highlights. simpl. rewrite String.eqb_refl. f_equal.
    apply map_ext_in. intros bar Hbar. apply String.eqb_neq. intros E.
    inversion Hnd as [|? ? Hnotin _]; subst. apply Hnotin. rewrite <- E.
    now apply in_map.
  - apply Permutation_sym. eapply perm_trans; [|apply Permutation_map, Hp].
    unfold groupby_mean. rewrite map_map. simpl. rewrite map_id. apply Permutation_refl.
Qed.

(** Over exact arithmetic the chart of a non-empty set of rows has an
    outcome. *)
Lemma team_bar_chart_outcome (metric : ScoredRow Q -> Q) (rows : list (ScoredRow Q)) :
  rows <> [] -> exists team_df best, team_bar_chart metric rows (inr (team_df, best)).
Proof.
  intros Hne.
  pose proof (stable_sort_desc_admissible snd (groupby_mean metric rows)) as Hs.
  destruct (sort_outcome_head _ _ _ Hs (groupby_mean_nonempty metric rows Hne))
    as [top [Hb _]].
  exists (stable_sort_desc snd (groupby_mean metric rows)), (fst top).
  exists (stable_sort_desc snd (groupby_mean metric rows)).
  split; [exact Hs|]. now rewrite Hb.
Qed.

(** [bar_chart_highlights_first] on the batting chart of [two_teams]. *)
Lemma bar_chart_highlights_first_witness :
  exists (team_df : list (string * Q)) (best : string) (rest : list (string * Q)),
    team_bar_chart batting_impact
      (feature_engineering (filter_stage ["India"; "England"]%string (@two_teams Q _)))
      (inr (team_df, best)) /\
    bar_highlights team_df best = true :: map (fun _ => false) rest.
Proof.
  destruct (team_bar_chart_outcome batting_impact
              (feature_engineering (filter_stage ["India"; "England"]%string (@two_teams Q _))))
    as [team_df [best H]]; [discriminate|].
  destruct (bar_chart_highlights_first Q exact _ _ team_df best H)
    as [top [rest [_ [_ [Hh _]]]]].
  exists team_df, best, rest. now split.
Defined.

(** ** The all-rounder tab *)

(** When the selected teams have no all-rounder, the tab shows its warning
    and then still draws the bar chart from the empty [ar_df]: the one
    outcome is the warning followed by IndexError.  When there is an
    all-rounder the tab shows no warning. *)
Theorem allrounder_tab_without_allrounders :
  forall (F : Type) (A : Arith F) (rows : list (ScoredRow F)),
    (ar_df rows = [] ->
     let shown := [warning "No all-rounders available for selected teams."] in
     allrounder_tab rows (shown, inl IndexError) /\
     forall out, allrounder_tab rows out -> out = (shown, inl IndexError)) /\
    (ar_df rows <> [] ->
     forall out, allrounder_tab rows out -> fst out = []).
Proof.
  intros F A rows. unfold allrounder_tab. split.
  - intros E. rewrite E. simpl. split.
    + exists (inl IndexError). split; [|reflexivity].
      exists []. split; [now apply sort_values_desc_nil | reflexivity].
    + intros out [chart [[team_df [Hs ->]] ->]].
      apply sort_values_desc_nil in Hs. now subst.
  - intros Hne out. destruct (ar_df rows) as [|m ar]; [congruence|]. simpl.
    intros [top [chart [_ [_ ->]]]]. reflexivity.
Qed.

Section MarkerSizes.
Open Scope Q_scope.

Lemma fmin_le (x z : Q) : fmin x z <= x /\ fmin x z <= z.
Proof.
  unfold fmin. simpl. destruct (Qle_bool x z) eqn:E.
  - apply Qle_bool_iff in E. split; [apply Qle_refl | exact E].
  - split; [|apply Qle_refl]. apply Qlt_le_weak, Qnot_le_lt.
    rewrite <- Qle_bool_iff. now rewrite E.
Qed.

Lemma fmax_ge (x z : Q) : x <= fmax x z /\ z <= fmax x z.
Proof.
  unfold fmax. simpl. destruct (Qle_bool x z) eqn:E.
  - apply Qle_bool_iff in E. split; [exact E | apply Qle_refl].
  - split; [apply Qle_refl|]. apply Qlt_le_weak, Qnot_le_lt.
    rewrite <- Qle_bool_iff. now rewrite E.
Qed.

Lemma fold_fmin_le (l : list Q) (x y : Q) :
  In y (x :: l) -> fold_left fmin l x <= y.
Proof.
  revert x y. induction l as [|z l IH]; intros x y Hy; simpl.
  - destruct Hy as [->|[]]. apply Qle_refl.
  - destruct (fmin_le x z) as [Hx Hz].
    destruct Hy as [->|[->|Hy]].
    + apply Qle_trans with (fmin y z); [|exact Hx]. apply IH. now left.
    + apply Qle_trans with (fmin x y); [|exact Hz]. apply IH. now left.
    + apply IH. now right.
Qed.

Lemma fold_fmin_In (l : list Q) (x : Q) : In (fold_left fmin l x) (x :: l).
Proof.
  revert x. induction l as [|z l IH]; intros x; simpl; [now left|].
  destruct (IH (fmin x z)) as [H|H]; [|right; now right].
  rewrite <- H. unfold fmin. simpl. destruct (Qle_bool x z); [now left | right; now left].
Qed.

Lemma fold_fmax_ge (l : list Q) (x y : Q) :
  In y (x :: l) -> y <= fold_left fmax l x.
Proof.
  revert x y. induction l as [|z l IH]; intros x y Hy; simpl.
  - destruct Hy as [->|[]]. apply Qle_refl.
  - destruct (fmax_ge x z) as [Hx Hz].
    destruct Hy as [->|[->|Hy]].
    + apply Qle_trans with (fmax y z); [exact Hx|]. apply IH. now left.
    + apply Qle_trans with (fmax x y); [exact Hz|]. apply IH. now left.
    + apply IH. now right.
Qed.

Lemma col_min_spec (xs : list Q) :
  xs <> [] -> In (col_min xs) xs /\ forall y, In y xs -> col_min xs <= y.
Proof.
  intros Hne. unfold col_min. rewrite exact_no_nan.
  destruct xs as [|x l]; [congruence|]. split.
  - apply fold_fmin_In.
  - intros y Hy. now apply fold_fmin_le.
Qed.

Lemma col_max_spec (xs : list Q) :
  xs <> [] -> forall y, In y xs -> y <= col_max xs.
Proof.
  intros Hne. unfold col_max. rewrite exact_no_nan.
  destruct xs as [|x l]; [congruence|]. intros y Hy. now apply fold_fmax_ge.
Qed.

Lemma marker_size_eq (mn mx x : Q) :
  marker_size mn mx x == (x - mn) / (mx - mn + (1 # 1000000)) * 250 + 60.
Proof. reflexivity. Qed.

Lemma marker_size_range (mn mx x : Q) :
  mn <= x -> x <= mx ->
  60 <= marker_size mn mx x < 310 /\ (marker_size mn mx x == 60 <-> x == mn).
Proof.
  intros H1 H2. rewrite marker_size_eq.
  set (d := mx - mn + (1 # 1000000)).
  assert (Hd : 0 < d) by (unfold d; lra).
  assert (Hq0 : 0 <= (x - mn) / d) by (apply Qle_shift_div_l; [exact Hd | lra]).
  assert (Hq1 : (x - mn) / d < 1) by (apply Qlt_shift_div_r; [exact Hd | unfold d; lra]).
  split; [split; lra|].
  assert (E : x - mn == (x - mn) / d * d) by (field; lra).
  split; intros H.
  - assert (Hz : (x - mn) / d == 0) by lra. rewrite Hz in E. lra.
  - assert (Hz : x - mn == 0) by lra. rewrite Hz. unfold Qdiv. lra.
Qed.

Lemma marker_size_monotone (mn mx x y : Q) :
  mn <= mx -> x <= y -> marker_size mn mx x <= marker_size mn mx y.
Proof.
  intros H1 H2. rewrite !marker_size_eq.
  set (d := mx - mn + (1 # 1000000)).
  assert (Hd : 0 < d) by (unfold d; lra).
  assert (H : (x - mn) / d <= (y - mn) / d).
  { unfold Qdiv. apply Qmult_le_compat_r; [lra|].
    apply Qlt_le_weak, Qinv_lt_0_compat, Hd. }
  lra.
Qed.

End MarkerSizes.

(** In exact arithmetic, with at least one all-rounder: there is one
    marker per all-rounder, every marker size lies in [60, 310) (the
    1e-6 in the divisor keeps it positive, also when all indices are
    equal), a row gets size 60 exactly when its allrounder_index is the
    smallest, which some row does, and a larger index never gets a
    smaller marker. *)
Theorem marker_sizes_bounds (ar : list (ScoredRow Q)) :
  ar <> [] ->
  let xs := map allrounder_index ar in
  let size := fun m => marker_size (col_min xs) (col_max xs) (allrounder_index m) in
  marker_sizes ar = map size ar /\
  (forall m, In m ar ->
     (60 <= size m < 310)%Q /\
     (size m == 60 <-> allrounder_index m == col_min xs)%Q) /\
  (exists m, In m ar /\ (size m == 60)%Q) /\
  (forall m1 m2, In m1 ar -> In m2 ar ->
     (allrounder_index m1 <= allrounder_index m2)%Q -> (size m1 <= size m2)%Q).
Proof.
  intros Hne xs size.
  assert (Hxs : xs <> []) by (intros E; apply map_eq_nil in E; contradiction).
  destruct (col_min_spec xs Hxs) as [Hmin_in Hmin].
  pose proof (col_max_spec xs Hxs) as Hmax.
  assert (Hin : forall m, In m ar -> In (allrounder_index m) xs)
    by (intros m Hm; now apply in_map).
  split; [unfold marker_sizes; now rewrite map_map|]. split; [|split].
  - intros m Hm. apply marker_size_range; [apply Hmin | apply Hmax]; now apply Hin.
  - apply in_map_iff in Hmin_in. destruct Hmin_in as [m [E Hm]].
    exists m. split; [exact Hm|].
    apply marker_size_range; [apply Hmin | apply Hmax | rewrite E; reflexivity];
      now apply Hin.
  - intros m1 m2 H1 H2 Hle. apply marker_size_monotone; [|exact Hle].
    apply Hmax. exact Hmin_in.
Qed.

(** [marker_sizes_bounds] on the all-rounders of [two_teams]. *)
Lemma marker_sizes_bounds_witness :
  let ar := ar_df (feature_engineering
                     (filter_stage ["India"; "England"]%string (@two_teams Q _))) in
  exists m, In m ar /\
    (marker_size (col_min (map allrounder_index ar)) (col_max (map allrounder_index ar))
                 (allrounder_index m) == 60)%Q.
Proof.
  intros ar.
  refine (proj1 (proj2 (proj2 (marker_sizes_bounds ar _)))).
  discriminate.
Defined.

(** In binary64 the constant of the divisor is the double of the literal
    [1e-6]. *)
Lemma binary64_epsilon : @c1e_6 float _ = 1e-6%float.
Proof. vm_compute. reflexivity. Qed.

(** *** The annotated players *)

Lemma strongly_sorted_app {T : Type} (R : T -> T -> Prop) (l1 l2 : list T) :
  StronglySorted R (l1 ++ l2) ->
  StronglySorted R l1 /\ forall a b, In a l1 -> In b l2 -> R a b.
Proof.
  induction l1 as [|x l1 IH]; simpl; intros H.
  - split; [constructor | intros a b []].
  - inversion H as [|? ? Hs Hall]; subst. destruct (IH Hs) as [Hs1 Hcross].
    rewrite Forall_forall in Hall. split.
    + constructor; [exact Hs1|]. apply Forall_forall. intros y Hy.
      apply Hall, in_or_app. now left.
    + intros a b [<-|Ha] Hb; [|now apply Hcross].
      apply Hall, in_or_app. now right.
Qed.

(** In exact arithmetic the tab annotates three players, or all of them
    when there are fewer; they are all-rounders of the table, listed in
    descending order of allrounder_index, and no all-rounder left out has
    a larger index than an annotated one. *)
Theorem top_ar_dominates (ar top : list (ScoredRow Q)) :
  top_ar ar top ->
  List.length top = Nat.min 3 (List.length ar) /\
  StronglySorted (fun a b => allrounder_index b <= allrounder_index a)%Q top /\
  exists rest,
    Permutation ar (top ++ rest) /\
    forall a b, In a top -> In b rest -> (allrounder_index b <= allrounder_index a)%Q.
Proof.
  intros [l' [Hs ->]].
  destruct (sort_outcome_descending _ _ _ Hs) as [Hp Hsorted].
  rewrite <- (firstn_skipn 3 l') in Hsorted.
  destruct (strongly_sorted_app _ _ _ Hsorted) as [Htop Hcross].
  split; [|split; [exact Htop|]].
  - rewrite length_firstn. now rewrite (Permutation_length Hp).
  - exists (skipn 3 l'). split; [now rewrite firstn_skipn | exact Hcross].
Qed.

(** Over exact arithmetic the ranking of the all-rounders has an outcome. *)
Lemma top_ar_outcome (ar : list (ScoredRow Q)) : exists top, top_ar ar top.
Proof.
  exists (firstn 3 (stable_sort_desc allrounder_index ar)).
  exists (stable_sort_desc allrounder_index ar).
  split; [apply stable_sort_desc_admissible | reflexivity].
Qed.

(** [top_ar_dominates] on the all-rounders of [two_teams]. *)
Lemma top_ar_dominates_witness :
  let ar := ar_df (feature_engineering
                     (filter_stage ["India"; "England"]%string (@two_teams Q _))) in
  exists top, top_ar ar top /\ List.length top = 1%nat.
Proof.
  intros ar. destruct (top_ar_outcome ar) as [top H].
  exists top. split; [exact H|].
  exact (proj1 (top_ar_dominates ar top H)).
Defined.

(** [allrounder_tab_without_allrounders] on [tied_table], whose players
    are all batters, in binary64. *)
Lemma allrounder_tab_without_allrounders_witness :
  allrounder_tab
    (feature_engineering (filter_stage ["Australia"; "India"]%string (@tied_table float _)))
    ([warning "No all-rounders available for selected teams."], inl IndexError).
Proof.
  apply (proj1 (allrounder_tab_without_allrounders float binary64
                  (feature_engineering
                     (filter_stage ["Australia"; "India"]%string tied_table)))).
  reflexivity.
Defined.
